(** * torchio: the label-aware patch sampler
    (torchio/data/sampler/label.py, class LabelSampler)

    A shallow embedding of [LabelSampler] and proofs of its documented
    properties.  The Python objects are modelled as follows.

    - A sample is a [dict] from names to entries; its iteration order is
      its insertion order, so it is an association list.
    - An array is a reference into a store of array objects; the store is
      threaded through every operation, so that aliasing and (absence of)
      mutation can be stated.
    - The external random-index generator is a stream of windows; the
      position in the stream is part of the world.
    - The unbounded [while] loop takes fuel: running out of fuel stands for
      a loop that has not terminated yet. *)

From stdpp Require Import base numbers list strings gmap.

(** ** Arrays *)

(** A dense N-dimensional array: its shape, and the voxel at every index.
    Voxels are integers (label maps are integer valued); [item] is only
    meaningful at indices inside [shape]. *)
Record ndarray := NDArray {
  shape : list nat;
  item : list nat -> Z
}.

(** All indices of an array of the given shape, in row-major order. *)
Fixpoint indices (s : list nat) : list (list nat) :=
  match s with
  | [] => [[]]
  | n :: s' => i ← seq 0 n; cons i <$> indices s'
  end.

(** [ndarray.sum()] *)
Definition ndarray_sum (a : ndarray) : Z :=
  foldr Z.add 0%Z (item a <$> indices (shape a)).

(** Number of positions selected by the slice [i:f] on an axis of extent
    [n] (both ends are clipped to the axis). *)
Definition slice_len (i f n : nat) : nat := f `min` n - i `min` n.

(** Extents of the crop of the spatial axes [ext] by the per-axis bounds
    [(ini, fin)]. *)
Definition crop_extent (bounds : list (nat * nat)) (ext : list nat) : list nat :=
  zip_with (fun b n => slice_len b.1 b.2 n) bounds ext.

(** Modelled from the spec: [crop] of torchio/data/sampler/sampler.py is
    not part of the sources at hand.  "Given an array, index_ini,
    index_fin, returns the sub-array over spatial dimensions, preserving
    any channel dimension unchanged."  The spatial axes are the last ones,
    one per coordinate of the window; the axes before them are kept in
    full.  Positions of the window that fall outside the array select
    nothing. *)
Definition crop (image : ndarray) (index_ini index_fin : list nat) : ndarray :=
  let bounds := zip index_ini index_fin in
  let lead := length (shape image) - length bounds in
  {| shape := take lead (shape image)
              ++ crop_extent bounds (drop lead (shape image));
     item := fun idx =>
       item image (take lead idx
                   ++ zip_with Nat.add bounds.*1 (drop lead idx)) |}.

(** ** Samples *)

Definition loc := positive.

(** Modelled from the spec: the constants [INTENSITY] and [LABEL] of the
    torchio package, "a tag from a small closed set including at least
    INTENSITY and LABEL". *)
Inductive image_type := INTENSITY | LABEL.

Global Instance image_type_eq_dec : EqDecision image_type.
Proof. solve_decision. Defined.

(** An image entry: [image_dict[DATA]] refers to an array object,
    [image_dict['type']] is the tag. *)
Record image_dict := ImageDict {
  DATA : loc;
  type : image_type
}.

(** A value of the sample dict: an image entry or anything else. *)
Inductive entry :=
  | Image (image : image_dict)
  | Aux (payload : Z).

Definition sample := list (string * entry).

(** Modelled from the spec: [is_image_dict] of torchio/utils.py, "a
    capability check implemented as a variant match". *)
Definition is_image_dict (value : entry) : bool :=
  match value with
  | Image _ => true
  | Aux _ => false
  end.

(** [sample.values()] *)
Definition values (s : sample) : list entry := snd <$> s.

(** ** The world and the monad of computations *)

Definition window : Type := list nat * list nat.

(** The world a call runs in: the array objects, the position in the
    stream of random windows, and a count of the calls made to the label
    locator (kept for the statements only; nothing reads it). *)
Record world := World {
  store : gmap loc ndarray;
  draws : nat;
  locates : nat
}.

Inductive exn :=
  | ValueError (msg : string)
  (** reading a reference to no object; does not arise for a sample whose
      arrays are in the store *)
  | DanglingReference (l : loc).

Inductive outcome (A : Type) :=
  | Returned (a : A) (w : world)
  | Raised (e : exn) (w : world)
  | OutOfFuel.
Arguments Returned {A} a w.
Arguments Raised {A} e w.
Arguments OutOfFuel {A}.

Definition M (A : Type) : Type := world -> outcome A.

Definition ret {A} (a : A) : M A := fun w => Returned a w.

Definition bind {A B} (m : M A) (k : A -> M B) : M B :=
  fun w =>
    match m w with
    | Returned a w' => k a w'
    | Raised e w' => Raised e w'
    | OutOfFuel => OutOfFuel
    end.

Definition raise {A} (e : exn) : M A := fun w => Raised e w.

Notation "'do' x <- m ; k" := (bind m (fun x => k))
  (at level 10, x pattern, m at level 100, k at level 200).

(** Reading the array object a reference points to. *)
Definition deref (l : loc) : M ndarray :=
  fun w =>
    match store w !! l with
    | Some a => Returned a w
    | None => Raised (DanglingReference l) w
    end.

(** Creating a new array object. *)
Definition alloc (a : ndarray) : M loc :=
  fun w =>
    let l := fresh (dom (store w)) in
    Returned l {| store := <[l := a]> (store w);
                  draws := draws w;
                  locates := locates w |}.

(** ** The base sampler (torchio/data/sampler/sampler.py) *)

Section Sampler.

(** The windows the random-index generator hands out, in the order it
    hands them out.  Whatever the generator derives from the sample and
    the patch size is part of the choice of this stream. *)
Variable random_windows : nat -> window.

(** Modelled from the spec: [ImageSampler.get_random_indices] is not
    part of the sources at hand.  "Given full spatial extent and patch
    size, returns a uniformly random valid crop window (index_ini,
    index_fin)."  Each call consumes the next window of the stream. *)
Definition get_random_indices (s : sample) (patch_size : list nat) : M window :=
  fun w =>
    Returned (random_windows (draws w))
             {| store := store w; draws := S (draws w); locates := locates w |}.

(** Modelled from the spec: one entry of [ImageSampler.copy_and_crop].
    An image entry gets a new array object holding the crop of its data;
    any other entry passes through unchanged. *)
Definition crop_entry (value : entry) (index_ini index_fin : list nat) : M entry :=
  match value with
  | Image image =>
      do a <- deref (DATA image);
      do l <- alloc (crop a index_ini index_fin);
      ret (Image {| DATA := l; type := type image |})
  | Aux payload => ret (Aux payload)
  end.

(** Modelled from the spec: [ImageSampler.copy_and_crop] is not part of
    the sources at hand.  "Crop every image entry's data in the sample
    (not just the label) to that same window, producing a new Sample
    with identical keys/types and cropped arrays; non-image entries pass
    through unchanged." *)
Fixpoint copy_and_crop (s : sample) (index_ini index_fin : list nat) : M sample :=
  match s with
  | [] => ret []
  | (key, value) :: rest =>
      do value' <- crop_entry value index_ini index_fin;
      do rest' <- copy_and_crop rest index_ini index_fin;
      ret ((key, value') :: rest')
  end.

(** ** LabelSampler (torchio/data/sampler/label.py) *)

(** The [for ... else] loop of [get_first_label_image_dict]: [Some] at
    the [break], [None] when the loop runs to its [else].  The [Aux]
    branch of the inner match is never taken: [is_image_dict] has sent
    such a value to [continue]. *)
Fixpoint first_label_loop (vals : list entry) : option image_dict :=
  match vals with
  | [] => None
  | value :: rest =>
      if negb (is_image_dict value) then first_label_loop rest
      else
        match value with
        | Image image_dict =>
            if decide (type image_dict = LABEL) then Some image_dict
            else first_label_loop rest
        | Aux _ => first_label_loop rest
        end
  end.

Definition no_label_message : string :=
  "No images of type torchio.LABEL found in sample".

(** One more call of the locator: bookkeeping, not part of the source. *)
Definition count_locate : M unit :=
  fun w => Returned tt {| store := store w; draws := draws w;
                          locates := S (locates w) |}.

Definition get_first_label_image_dict (s : sample) : M image_dict :=
  do _ <- count_locate;
  match first_label_loop (values s) with
  | Some label_image_dict => ret label_image_dict
  | None => raise (ValueError no_label_message)
  end.

(** The acceptance test of one proposed window:
    [crop(label_image_data, index_ini, index_fin).sum() > 0]. *)
Definition has_label_in (label : ndarray) (index_ini index_fin : list nat) : bool :=
  let patch_label := crop label index_ini index_fin in
  bool_decide (0 < ndarray_sum patch_label)%Z.

(** The [while not has_label] loop of [extract_patch].  [has_label] is
    [False] on entry, so the body runs before the first test; the loop
    returns the values of [index_ini] and [index_fin] at its exit.
    [fuel] bounds the number of iterations. *)
Fixpoint retry (fuel : nat) (label_image_data : loc)
    (s : sample) (patch_size : list nat) : M window :=
  match fuel with
  | O => fun _ => OutOfFuel
  | S fuel' =>
      do (index_ini, index_fin) <- get_random_indices s patch_size;
      do label <- deref label_image_data;
      if has_label_in label index_ini index_fin
      then ret (index_ini, index_fin)
      else retry fuel' label_image_data s patch_size
  end.

Definition extract_patch (fuel : nat) (s : sample) (patch_size : list nat) : M sample :=
  do label_image_dict <- get_first_label_image_dict s;
  let label_image_data := DATA label_image_dict in
  do (index_ini, index_fin) <- retry fuel label_image_data s patch_size;
  copy_and_crop s index_ini index_fin.

End Sampler.

(** ** The generator (a Python generator object) *)

Inductive gen_state := GEN_CREATED | GEN_SUSPENDED | GEN_CLOSED.

(** The frame of a generator made by [extract_patch_generator]: its two
    arguments, and where it stands. *)
Record generator := Generator {
  gi_sample : sample;
  gi_patch_size : list nat;
  gi_state : gen_state
}.

(** What a call to [next] on a generator comes to. *)
Inductive next_outcome :=
  | Yielded (value : sample) (g : generator) (w : world)
  | Threw (e : exn) (g : generator) (w : world)
  | StopIteration (g : generator) (w : world)
  | Hung.

Definition set_state (g : generator) (st : gen_state) : generator :=
  {| gi_sample := gi_sample g; gi_patch_size := gi_patch_size g;
     gi_state := st |}.

Section Generator.

Variable random_windows : nat -> window.

(** Calling the generator function runs none of its body. *)
Definition extract_patch_generator (s : sample) (patch_size : list nat) : generator :=
  {| gi_sample := s; gi_patch_size := patch_size; gi_state := GEN_CREATED |}.

(** [next(g)]: run the body up to its next [yield].  The body is
    [while True: yield self.extract_patch(sample, patch_size)], so from
    the start and from the [yield] alike the next thing to run is the
    call of [extract_patch].  An exception leaves the generator closed,
    and a closed generator stops. *)
Definition next (fuel : nat) (g : generator) (w : world) : next_outcome :=
  match gi_state g with
  | GEN_CLOSED => StopIteration g w
  | GEN_CREATED | GEN_SUSPENDED =>
      match extract_patch random_windows fuel (gi_sample g) (gi_patch_size g) w with
      | Returned value w' => Yielded value (set_state g GEN_SUSPENDED) w'
      | Raised e w' => Threw e (set_state g GEN_CLOSED) w'
      | OutOfFuel => Hung
      end
  end.

(** The call of [next] that follows [n] calls that yielded. *)
Fixpoint nth_next (n : nat) (fuel : nat) (g : generator) (w : world) : next_outcome :=
  match n with
  | O => next fuel g w
  | S n' =>
      match next fuel g w with
      | Yielded _ g' w' => nth_next n' fuel g' w'
      | other => other
      end
  end.

(** The call of [extract_patch] that follows [n] calls that returned. *)
Fixpoint nth_call (n : nat) (fuel : nat) (s : sample) (patch_size : list nat) : M sample :=
  match n with
  | O => extract_patch random_windows fuel s patch_size
  | S n' =>
      do _ <- extract_patch random_windows fuel s patch_size;
      nth_call n' fuel s patch_size
  end.

(** The outcome of a call of [extract_patch], seen through [next]. *)
Definition as_next (s : sample) (patch_size : list nat)
    (o : outcome sample) : next_outcome :=
  match o with
  | Returned value w' =>
      Yielded value (Generator s patch_size GEN_SUSPENDED) w'
  | Raised e w' => Threw e (Generator s patch_size GEN_CLOSED) w'
  | OutOfFuel => Hung
  end.

End Generator.

(** ** Reading a sample by value *)

Inductive entry_value :=
  | ImageV (a : ndarray) (t : image_type)
  | AuxV (payload : Z).

Definition read_entry (σ : gmap loc ndarray) (value : entry) : option entry_value :=
  match value with
  | Image image => a ← σ !! DATA image; Some (ImageV a (type image))
  | Aux payload => Some (AuxV payload)
  end.

Definition read_sample (σ : gmap loc ndarray) (s : sample)
    : option (list (string * entry_value)) :=
  mapM (fun kv => v ← read_entry σ kv.2; Some (kv.1, v)) s.

Definition crop_value (index_ini index_fin : list nat) (v : entry_value) : entry_value :=
  match v with
  | ImageV a t => ImageV (crop a index_ini index_fin) t
  | AuxV payload => AuxV payload
  end.

(** The references to array objects held by a sample. *)
Definition arrays (s : sample) : list loc :=
  kv ← s; match kv.2 with Image image => [DATA image] | Aux _ => [] end.

(** ** Notions the statements use *)

(** An image entry whose type is the label tag. *)
Definition label_tagged (value : entry) : bool :=
  match value with
  | Image image => bool_decide (type image = LABEL)
  | Aux _ => false
  end.

(** The world after a call that consulted the label locator once and drew
    [n] windows, and did nothing else. *)
Definition after_draws (n : nat) (w : world) : world :=
  {| store := store w; draws := draws w + n; locates := S (locates w) |}.

(** The window at position [base + k] of the stream is the first one,
    counting from position [base], that the acceptance test lets through. *)
Definition first_accept (rw : nat -> window) (label : ndarray) (base k : nat) : Prop :=
  has_label_in label (rw (base + k)).1 (rw (base + k)).2 = true
  ∧ ∀ j, j < k → has_label_in label (rw (base + j)).1 (rw (base + j)).2 = false.

(** [value'] is [value] cropped by the window: an image entry keeps its
    tag and holds the crop of the array [value] holds, any other entry is
    the same.  Both arrays are read in the store [σ]. *)
Definition cropped_entry (σ : gmap loc ndarray) (index_ini index_fin : list nat)
    (value value' : entry) : Prop :=
  match value, value' with
  | Image image, Image image' =>
      type image' = type image
      ∧ ∃ a, σ !! DATA image = Some a
             ∧ σ !! DATA image' = Some (crop a index_ini index_fin)
  | Aux payload, Aux payload' => payload' = payload
  | _, _ => False
  end.

(** [out] has the keys of [s], in the same order, and each of its entries
    is the entry of [s] cropped by the window. *)
Definition cropped_sample (σ : gmap loc ndarray) (index_ini index_fin : list nat)
    (s out : sample) : Prop :=
  Forall2 (λ kv kv', kv'.1 = kv.1
                     ∧ cropped_entry σ index_ini index_fin kv.2 kv'.2) s out.

(** [value'] has the shape of [value] with the patch size in the place of
    the spatial extent: the axes before the spatial ones are those of
    [value].  [value] is read in [σ] and [value'] in [σ']. *)
Definition patch_shaped (σ σ' : gmap loc ndarray) (extent patch_size : list nat)
    (value value' : entry) : Prop :=
  match value, value' with
  | Image image, Image image' =>
      ∃ a a' lead, σ !! DATA image = Some a
                   ∧ σ' !! DATA image' = Some a'
                   ∧ shape a = lead ++ extent
                   ∧ shape a' = lead ++ patch_size
  | Aux _, Aux _ => True
  | _, _ => False
  end.

(** A crop window for the given spatial extent and patch size. *)
Definition valid_window (extent patch_size : list nat) (win : window) : Prop :=
  length win.1 = length patch_size
  ∧ win.2 = zip_with Nat.add win.1 patch_size
  ∧ Forall2 le win.2 extent.

(** The label-tagged image entries among a list of values, in their
    order. *)
Definition label_images (vals : list entry) : list image_dict :=
  omap (λ value, match value with
                 | Image image =>
                     if decide (type image = LABEL) then Some image else None
                 | Aux _ => None
                 end) vals.

(** The index [idx] of an array lies in the window: its last coordinates,
    one per coordinate of the window, are at or after [index_ini] and
    before [index_fin]. *)
Definition in_window (index_ini index_fin idx : list nat) : Prop :=
  let bounds := zip index_ini index_fin in
  Forall2 (λ b x, b.1 ≤ x < b.2)
          (take (length idx) bounds)
          (drop (length idx - length bounds) idx).

(** ** Test data *)

Module Examples.

(** A label map of shape (1, 3, 3, 3) with one foreground voxel, at
    (2, 2, 2). *)
Definition label_map : ndarray :=
  {| shape := [1; 3; 3; 3];
     item := fun idx => if decide (idx = [0; 2; 2; 2]) then 1%Z else 0%Z |}.

(** An intensity image with a second channel. *)
Definition scan : ndarray :=
  {| shape := [2; 3; 3; 3];
     item := fun idx => Z.of_nat (sum_list idx) |}.

(** A label map without foreground. *)
Definition empty_map : ndarray :=
  {| shape := [1; 3; 3; 3]; item := fun _ => 0%Z |}.

Definition store0 : gmap loc ndarray :=
  <[3%positive := empty_map]> (<[2%positive := label_map]> {[ 1%positive := scan ]}).

Definition w0 : world := {| store := store0; draws := 0; locates := 0 |}.

Definition subject : sample :=
  [("t1", Image (ImageDict 1%positive INTENSITY));
   ("age", Aux 45%Z);
   ("seg", Image (ImageDict 2%positive LABEL));
   ("seg2", Image (ImageDict 3%positive LABEL))].

Definition no_label_subject : sample :=
  [("t1", Image (ImageDict 1%positive INTENSITY)); ("age", Aux 45%Z)].

Definition blank_subject : sample :=
  [("t1", Image (ImageDict 1%positive INTENSITY));
   ("seg", Image (ImageDict 3%positive LABEL))].

(** A stream of windows of size (2, 2, 2): the first misses the
    foreground voxel, the later ones contain it. *)
Definition stream : nat -> window :=
  fun n => match n with
           | O => ([0; 0; 0], [2; 2; 2])
           | _ => ([1; 1; 1], [3; 3; 3])
           end.

(** What [extract_patch] makes of [subject] in [w0]: the first window
    is rejected, the second accepted, and three arrays are made. *)
Definition patch0 : sample :=
  [("t1", Image (ImageDict 4%positive INTENSITY));
   ("age", Aux 45%Z);
   ("seg", Image (ImageDict 5%positive LABEL));
   ("seg2", Image (ImageDict 6%positive LABEL))].

Definition w1 : world :=
  {| store :=
       <[6%positive := crop empty_map [1; 1; 1] [3; 3; 3]]>
         (<[5%positive := crop label_map [1; 1; 1] [3; 3; 3]]>
            (<[4%positive := crop scan [1; 1; 1] [3; 3; 3]]> store0));
     draws := 2; locates := 1 |}.

(** The same stream, as met by a call that starts at position 2. *)
Definition late_stream : nat -> window := fun n => stream (n - 2).

Definition patch1 : sample :=
  [("t1", Image (ImageDict 7%positive INTENSITY));
   ("age", Aux 45%Z);
   ("seg", Image (ImageDict 8%positive LABEL));
   ("seg2", Image (ImageDict 9%positive LABEL))].

Definition w2 : world :=
  {| store :=
       <[9%positive := crop empty_map [1; 1; 1] [3; 3; 3]]>
         (<[8%positive := crop label_map [1; 1; 1] [3; 3; 3]]>
            (<[7%positive := crop scan [1; 1; 1] [3; 3; 3]]> (store w1)));
     draws := 4; locates := 2 |}.

(** Windows that are empty along the first spatial axis, as a patch size
    of (0, 2, 2) gives. *)
Definition empty_stream : nat -> window :=
  fun n => ([n `mod` 3; 1; 1], [n `mod` 3; 3; 3]).

(** What the second element of the generator over [subject] is, drawn
    with [stream] from [w0]. *)
Definition w2' : world :=
  {| store := store w2; draws := 3; locates := 2 |}.

Definition subject_values : list (string * entry_value) :=
  [("t1", ImageV scan INTENSITY);
   ("age", AuxV 45%Z);
   ("seg", ImageV label_map LABEL);
   ("seg2", ImageV empty_map LABEL)].

End Examples.

(** * Properties *)

(** ** Arrays *)

Lemma elem_of_indices (idx s : list nat) :
  idx ∈ indices s ↔ Forall2 lt idx s.
Proof.
  revert idx. induction s as [|n s IH]; intros idx; simpl.
  - rewrite list_elem_of_singleton. split.
    + intros ->. constructor.
    + by intros ->%Forall2_nil_inv_r.
  - rewrite list_elem_of_bind. split.
    + intros (i & Hin & Hi). apply list_elem_of_fmap in Hin as (tl & -> & Htl).
      apply elem_of_seq in Hi. constructor; [lia | by apply IH].
    + intros (i & tl & Hi & Htl & ->)%Forall2_cons_inv_r.
      exists i. split; [|apply elem_of_seq; lia].
      apply list_elem_of_fmap. exists tl. split; [done | by apply IH].
Qed.

Lemma slice_len_in_range (i f n j : nat) :
  j < slice_len i f n → i + j < n.
Proof. unfold slice_len. lia. Qed.

Lemma slice_len_exact (i p n : nat) :
  i + p ≤ n → slice_len i (i + p) n = p.
Proof. unfold slice_len. lia. Qed.

Lemma crop_extent_in_range (bounds : list (nat * nat)) (ext idx : list nat) :
  length ext ≤ length bounds →
  Forall2 lt idx (crop_extent bounds ext) →
  Forall2 lt (zip_with Nat.add bounds.*1 idx) ext.
Proof.
  revert ext idx. induction bounds as [|[i f] bounds IH]; intros ext idx Hlen H.
  - destruct ext; simpl in *; [|lia]. constructor.
  - destruct ext as [|n ext]; simpl in *.
    + apply Forall2_nil_inv_r in H as ->. constructor.
    + apply Forall2_cons_inv_r in H as (j & tl & Hj & Htl & ->). simpl.
      constructor; [by eapply slice_len_in_range | apply IH; [lia | done]].
Qed.

(** An index of the crop reads the array at an index of the array. *)
Lemma crop_index_in_range (a : ndarray) (ini fin idx : list nat) :
  idx ∈ indices (shape (crop a ini fin)) →
  let lead := length (shape a) - length (zip ini fin) in
  take lead idx ++ zip_with Nat.add (zip ini fin).*1 (drop lead idx)
    ∈ indices (shape a).
Proof.
  intros H lead. apply elem_of_indices in H. apply elem_of_indices.
  simpl in H. fold lead in H.
  apply Forall2_app_inv_r in H as (idx1 & idx2 & H1 & H2 & ->).
  assert (length idx1 = lead) as Hl1.
  { apply Forall2_length in H1. rewrite H1, length_take. lia. }
  rewrite take_app_length', drop_app_length' by done.
  rewrite <- (take_drop lead (shape a)).
  apply Forall2_app; [done|].
  apply crop_extent_in_range; [|done].
  rewrite length_drop. lia.
Qed.

Lemma crop_item (a : ndarray) (ini fin idx : list nat) :
  item (crop a ini fin) idx
  = let lead := length (shape a) - length (zip ini fin) in
    item a (take lead idx ++ zip_with Nat.add (zip ini fin).*1 (drop lead idx)).
Proof. reflexivity. Qed.

(** The crop by a window of the patch size that fits in the spatial
    extent has the patch size as its spatial shape. *)
Lemma crop_shape (a : ndarray) (lead ext ini patch_size : list nat) :
  shape a = lead ++ ext →
  length ini = length patch_size →
  Forall2 le (zip_with Nat.add ini patch_size) ext →
  shape (crop a ini (zip_with Nat.add ini patch_size)) = lead ++ patch_size.
Proof.
  intros Hs Hlen Hfit. simpl. rewrite Hs.
  assert (length ext = length ini) as Hext.
  { apply Forall2_length in Hfit. rewrite length_zip_with in Hfit. lia. }
  assert (length (zip ini (zip_with Nat.add ini patch_size)) = length ext) as ->.
  { rewrite length_zip_with, length_zip_with. lia. }
  rewrite length_app.
  replace (length lead + length ext - length ext) with (length lead) by lia.
  rewrite take_app_length, drop_app_length. f_equal.
  clear Hs Hext. revert patch_size ext Hlen Hfit.
  induction ini as [|i ini IH]; intros [|p ps] ext Hlen Hfit;
    simpl in *; try done.
  apply Forall2_cons_inv_l in Hfit as (n & ext' & Hn & Hfit & ->).
  unfold crop_extent in *. simpl. rewrite slice_len_exact by lia.
  f_equal. apply IH; [lia | done].
Qed.

Lemma sum_nonneg (l : list Z) :
  Forall (λ x, 0 ≤ x)%Z l → (0 ≤ foldr Z.add 0 l)%Z.
Proof. induction 1; simpl; lia. Qed.

Lemma sum_nonpos (l : list Z) :
  Forall (λ x, x ≤ 0)%Z l → (foldr Z.add 0 l ≤ 0)%Z.
Proof. induction 1; simpl; lia. Qed.

Lemma sum_pos_exists (l : list Z) :
  (0 < foldr Z.add 0 l)%Z → Exists (λ x, 0 < x)%Z l.
Proof.
  induction l as [|x l IH]; simpl; [lia|]. intros H.
  destruct (decide (0 < x)%Z); [by left | right; apply IH; lia].
Qed.

Lemma sum_pos_iff (l : list Z) :
  Forall (λ x, 0 ≤ x)%Z l →
  (0 < foldr Z.add 0 l)%Z ↔ Exists (λ x, 0 < x)%Z l.
Proof.
  induction 1 as [|x l Hx Hl IH]; simpl.
  - split; [lia | by intros ?%Exists_nil].
  - pose proof (sum_nonneg l Hl). rewrite Exists_cons, <- IH. lia.
Qed.

(** ** The monad *)

Lemma bind_Returned {A B} (m : M A) (k : A → M B) w b w' :
  bind m k w = Returned b w' ↔
  ∃ a w1, m w = Returned a w1 ∧ k a w1 = Returned b w'.
Proof.
  unfold bind. split.
  - destruct (m w) as [a w1| |]; [eauto | done | done].
  - by intros (a & w1 & -> & ?).
Qed.

Lemma bind_Raised {A B} (m : M A) (k : A → M B) w e w' :
  bind m k w = Raised e w' ↔
  m w = Raised e w' ∨ ∃ a w1, m w = Returned a w1 ∧ k a w1 = Raised e w'.
Proof.
  unfold bind. split.
  - destruct (m w) as [a w1|e1 w1|]; [eauto | | done].
    intros [= -> ->]. by left.
  - intros [-> | (a & w1 & -> & ?)]; done.
Qed.

Lemma deref_Returned l w a w' :
  deref l w = Returned a w' ↔ store w !! l = Some a ∧ w' = w.
Proof.
  unfold deref. destruct (store w !! l); split;
    [by intros [= -> ->] | by intros [[= ->] ->] | done | by intros [? _]].
Qed.

Lemma fresh_not_in_store (σ : gmap loc ndarray) : σ !! fresh (dom σ) = None.
Proof. apply not_elem_of_dom, is_fresh. Qed.

Lemma alloc_extends (σ : gmap loc ndarray) a : σ ⊆ <[fresh (dom σ) := a]> σ.
Proof. apply insert_subseteq, fresh_not_in_store. Qed.

(** ** copy_and_crop *)

Lemma cropped_entry_mono σ σ' ini fin value value' :
  σ ⊆ σ' → cropped_entry σ ini fin value value' →
  cropped_entry σ' ini fin value value'.
Proof.
  intros Hsub. destruct value as [d|p], value' as [d'|p']; simpl; try done.
  intros (Ht & a & Ha & Ha'). split; [done|].
  exists a. split; eapply lookup_weaken; eauto.
Qed.

Lemma crop_entry_Returned value ini fin w value' w1 :
  crop_entry value ini fin w = Returned value' w1 →
  store w ⊆ store w1 ∧ draws w1 = draws w ∧ locates w1 = locates w
  ∧ cropped_entry (store w1) ini fin value value'
  ∧ (∀ image', value' = Image image' →
       (DATA image' ∉ dom (store w)) ∧ DATA image' ∈ dom (store w1)).
Proof.
  destruct value as [d|p]; simpl.
  - intros (a & w0 & [Ha ->]%deref_Returned & H)%bind_Returned.
    apply bind_Returned in H as (l & w2 & Hl & H).
    unfold alloc in Hl. injection Hl as <- <-.
    unfold ret in H. injection H as <- <-. simpl.
    split; [apply alloc_extends|]. do 2 (split; [done|]).
    split.
    + split; [done|]. exists a. split.
      * eapply lookup_weaken; [done | apply alloc_extends].
      * apply lookup_insert_eq.
    + intros ? [= <-]. simpl. split; [apply is_fresh|].
      apply elem_of_dom. rewrite lookup_insert_eq. eauto.
  - unfold ret. intros [= <- <-]. simpl. by repeat split.
Qed.

Lemma copy_and_crop_Returned s ini fin w out w' :
  copy_and_crop s ini fin w = Returned out w' →
  store w ⊆ store w' ∧ draws w' = draws w ∧ locates w' = locates w
  ∧ cropped_sample (store w') ini fin s out
  ∧ Forall (λ l, (l ∉ dom (store w)) ∧ l ∈ dom (store w')) (arrays out)
  ∧ NoDup (arrays out).
Proof.
  revert w out w'. induction s as [|[key value] rest IH]; intros w out w'; simpl.
  - unfold ret. intros [= <- <-]. repeat split; try done; constructor.
  - intros (value' & w1 & Hv & H)%bind_Returned.
    apply bind_Returned in H as (rest' & w2 & Hrest & H).
    unfold ret in H. injection H as <- <-.
    apply crop_entry_Returned in Hv as (Hsub1 & Hd1 & Hl1 & Hc1 & Hnew1).
    apply IH in Hrest as (Hsub2 & Hd2 & Hl2 & Hc2 & Hnew2 & Hnd).
    split; [by etrans|]. do 2 (split; [congruence|]).
    split; [|split].
    + constructor; [|done]. split; [done|]. simpl.
      by eapply cropped_entry_mono.
    + unfold arrays. simpl. fold (arrays rest'). apply Forall_app. split.
      * destruct value' as [d'|]; [|constructor].
        destruct (Hnew1 d' eq_refl) as [Hout Hin].
        repeat constructor; [done|].
        eapply subseteq_dom; [exact Hsub2 | done].
      * eapply Forall_impl; [exact Hnew2|]. simpl. intros l [Hl ?].
        split; [|done]. intros ?. apply Hl.
        eapply subseteq_dom; [exact Hsub1 | done].
    + unfold arrays. simpl. fold (arrays rest').
      destruct value' as [d'|]; simpl; [|done].
      constructor; [|done]. intros Hin.
      rewrite Forall_forall in Hnew2. destruct (Hnew2 _ Hin) as [Hout _].
      by destruct (Hnew1 d' eq_refl) as [_ ?].
Qed.

(** ** The label locator *)

Lemma first_label_loop_Some vals image :
  first_label_loop vals = Some image ↔
  ∃ pre post, vals = pre ++ Image image :: post
              ∧ type image = LABEL
              ∧ Forall (λ v, label_tagged v = false) pre.
Proof.
  induction vals as [|value rest IH]; simpl.
  - split; [done|]. intros (pre & post & H & _). by destruct pre.
  - destruct value as [d|p]; simpl.
    + destruct (decide (type d = LABEL)) as [Hd|Hd].
      * split.
        -- intros [= ->]. exists [], rest. by repeat split.
        -- intros ([|v pre] & post & H & Ht & Hpre); simplify_eq/=; [done|].
           apply Forall_cons in Hpre as [Hv _]. simpl in Hv.
           by apply bool_decide_eq_false in Hv.
      * rewrite IH. split.
        -- intros (pre & post & -> & Ht & Hpre).
           exists (Image d :: pre), post. repeat split; [done|].
           constructor; [|done]. simpl. by apply bool_decide_eq_false.
        -- intros ([|v pre] & post & H & Ht & Hpre); simplify_eq/=.
           apply Forall_cons in Hpre as [_ Hpre]. eauto.
    + rewrite IH. split.
      * intros (pre & post & -> & Ht & Hpre).
        exists (Aux p :: pre), post. repeat split; [done|]. by constructor.
      * intros ([|v pre] & post & H & Ht & Hpre); simplify_eq/=.
        apply Forall_cons in Hpre as [_ Hpre]. eauto.
Qed.

Lemma first_label_loop_None vals :
  first_label_loop vals = None ↔ Forall (λ v, label_tagged v = false) vals.
Proof.
  induction vals as [|value rest IH]; simpl; [by split|].
  rewrite Forall_cons. destruct value as [d|p]; simpl.
  - destruct (decide (type d = LABEL)) as [Hd|Hd].
    + rewrite bool_decide_eq_false. split; [done | by intros [? _]].
    + rewrite IH, bool_decide_eq_false. tauto.
  - rewrite IH. tauto.
Qed.

Lemma get_first_label_image_dict_unfold s w :
  get_first_label_image_dict s w
  = let w' := {| store := store w; draws := draws w;
                 locates := S (locates w) |} in
    match first_label_loop (values s) with
    | Some label_image_dict => Returned label_image_dict w'
    | None => Raised (ValueError no_label_message) w'
    end.
Proof.
  unfold get_first_label_image_dict, bind, count_locate, ret, raise. simpl.
  by destruct (first_label_loop (values s)).
Qed.

(** ** The retry loop *)

Section Retry.

Variable rw : nat → window.

Lemma first_accept_shift label base k :
  has_label_in label (rw base).1 (rw base).2 = false →
  first_accept rw label (S base) k → first_accept rw label base (S k).
Proof.
  intros H0 [Hk Hj]. split.
  - by replace (base + S k) with (S base + k) by lia.
  - intros [|j] ?.
    + by rewrite Nat.add_0_r.
    + replace (base + S j) with (S base + j) by lia. apply Hj. lia.
Qed.

Lemma first_accept_unique label base k k' :
  first_accept rw label base k → first_accept rw label base k' → k = k'.
Proof.
  intros [Hk Hj] [Hk' Hj'].
  destruct (Nat.lt_trichotomy k k') as [?|[?|?]]; [|done|].
  - rewrite Hj' in Hk by done. done.
  - rewrite Hj in Hk' by done. done.
Qed.

(** One turn of the loop, on a label array that is in the store. *)
Lemma retry_step fuel l s patch_size w label :
  store w !! l = Some label →
  retry rw (S fuel) l s patch_size w
  = let w1 := {| store := store w; draws := S (draws w);
                 locates := locates w |} in
    if has_label_in label (rw (draws w)).1 (rw (draws w)).2
    then Returned (rw (draws w)) w1
    else retry rw fuel l s patch_size w1.
Proof.
  intros Hl. simpl. unfold bind at 1, get_random_indices.
  destruct (rw (draws w)) as [ini fin]. unfold bind, deref. simpl.
  rewrite Hl. by destruct (has_label_in label ini fin).
Qed.

Lemma retry_dangling fuel l s patch_size w :
  store w !! l = None →
  retry rw (S fuel) l s patch_size w
  = Raised (DanglingReference l)
      {| store := store w; draws := S (draws w); locates := locates w |}.
Proof.
  intros Hl. simpl. unfold bind at 1, get_random_indices.
  destruct (rw (draws w)) as [ini fin]. unfold bind, deref. simpl.
  by rewrite Hl.
Qed.

(** The loop returns only through an accepted window, the first one. *)
Lemma retry_Returned fuel l s patch_size w win w' :
  retry rw fuel l s patch_size w = Returned win w' →
  ∃ label k,
    store w !! l = Some label ∧ k < fuel
    ∧ first_accept rw label (draws w) k
    ∧ win = rw (draws w + k)
    ∧ w' = {| store := store w; draws := draws w + S k;
              locates := locates w |}.
Proof.
  revert w. induction fuel as [|fuel IH]; intros w; [done|].
  destruct (store w !! l) as [label|] eqn:Hl;
    [|by rewrite retry_dangling].
  rewrite (retry_step _ _ _ _ _ label) by done. simpl.
  destruct (has_label_in _ _ _) eqn:Hacc.
  - intros [= <- <-]. exists label, 0. rewrite Nat.add_0_r.
    split_and!; [done | lia | | done | f_equal; lia].
    split; [by rewrite Nat.add_0_r | intros j ?; lia].
  - intros (label' & k & Hl' & Hk & Hfa & -> & ->)%IH. simpl in *.
    rewrite Hl in Hl'. injection Hl' as <-. exists label, (S k).
    split_and!; [done | lia | | f_equal; lia | f_equal; lia].
    by apply first_accept_shift.
Qed.

(** With enough fuel the loop returns the first accepted window. *)
Lemma retry_terminates fuel l s patch_size w label k :
  store w !! l = Some label →
  first_accept rw label (draws w) k →
  k < fuel →
  retry rw fuel l s patch_size w
  = Returned (rw (draws w + k))
      {| store := store w; draws := draws w + S k; locates := locates w |}.
Proof.
  revert w k. induction fuel as [|fuel IH]; intros w k Hl [Hk Hj] Hfuel;
    [lia|].
  rewrite (retry_step _ _ _ _ _ label) by done. simpl.
  destruct k as [|k].
  - rewrite Nat.add_0_r in Hk |- *. rewrite Hk. do 2 f_equal. lia.
  - pose proof (Hj 0 ltac:(lia)) as H0. rewrite Nat.add_0_r in H0.
    rewrite H0, (IH _ k); simpl; [|done| |lia].
    + do 2 f_equal; [f_equal; lia | f_equal; lia].
    + split.
      * by replace (S (draws w) + k) with (draws w + S k) by lia.
      * intros j ?. replace (S (draws w) + j) with (draws w + S j) by lia.
        apply Hj. lia.
Qed.

(** The loop has no error exit: on a label array that is in the store it
    raises nothing. *)
Lemma retry_not_Raised fuel l s patch_size w e w' :
  is_Some (store w !! l) →
  retry rw fuel l s patch_size w ≠ Raised e w'.
Proof.
  revert w. induction fuel as [|fuel IH]; intros w [label Hl]; [done|].
  rewrite (retry_step _ _ _ _ _ label) by done. simpl.
  destruct (has_label_in _ _ _); [done|].
  apply IH. simpl. eauto.
Qed.

(** Without an accepted window the loop never returns. *)
Lemma retry_OutOfFuel fuel l s patch_size w label :
  store w !! l = Some label →
  (∀ ini fin, has_label_in label ini fin = false) →
  retry rw fuel l s patch_size w = OutOfFuel.
Proof.
  intros Hl Hnone. revert w Hl.
  induction fuel as [|fuel IH]; intros w Hl; [done|].
  rewrite (retry_step _ _ _ _ _ label) by done. simpl.
  rewrite Hnone. by apply IH.
Qed.

End Retry.

(** ** extract_patch *)

Section ExtractPatch.

Variable rw : nat → window.

(** A call that returns has found the label, accepted the first window
    of the stream that passes the test, and cropped the sample by it. *)
Lemma extract_patch_Returned fuel s patch_size w out w' :
  extract_patch rw fuel s patch_size w = Returned out w' →
  ∃ image label k,
    first_label_loop (values s) = Some image
    ∧ store w !! DATA image = Some label
    ∧ k < fuel
    ∧ first_accept rw label (draws w) k
    ∧ copy_and_crop s (rw (draws w + k)).1 (rw (draws w + k)).2
        (after_draws (S k) w) = Returned out w'.
Proof.
  unfold extract_patch.
  intros (image & w1 & Hloc & H)%bind_Returned.
  apply bind_Returned in H as ([ini fin] & w2 & Hretry & Hcrop).
  rewrite get_first_label_image_dict_unfold in Hloc. simpl in Hloc.
  destruct (first_label_loop (values s)) as [image'|] eqn:Hfirst; [|done].
  injection Hloc as -> <-.
  apply retry_Returned in Hretry as (label & k & Hl & Hk & Hfa & Hwin & ->).
  simpl in *. exists image, label, k. split_and!; try done.
  by rewrite <- Hwin.
Qed.

(** With fuel for the rejected windows and the accepted one, the call
    comes to the cropping of the sample by the first accepted window. *)
Lemma extract_patch_accepts fuel s patch_size w image label k :
  first_label_loop (values s) = Some image →
  store w !! DATA image = Some label →
  first_accept rw label (draws w) k →
  k < fuel →
  extract_patch rw fuel s patch_size w
  = copy_and_crop s (rw (draws w + k)).1 (rw (draws w + k)).2
      (after_draws (S k) w).
Proof.
  intros Hfirst Hl Hfa Hk. unfold extract_patch, bind at 1.
  rewrite get_first_label_image_dict_unfold, Hfirst. simpl.
  unfold bind. erewrite retry_terminates; [|done|done|done]. simpl.
  by destruct (rw (draws w + k)).
Qed.

End ExtractPatch.

(** Cropping a sample whose arrays are all in the store returns. *)
Lemma copy_and_crop_returns s ini fin w :
  Forall (λ l, is_Some (store w !! l)) (arrays s) →
  ∃ out w', copy_and_crop s ini fin w = Returned out w'.
Proof.
  revert w. induction s as [|[key value] rest IH]; intros w Hs; simpl.
  - by eexists _, _.
  - unfold arrays in Hs. simpl in Hs. fold (arrays rest) in Hs.
    apply Forall_app in Hs as [Hv Hrest].
    assert (∃ value' w1, crop_entry value ini fin w = Returned value' w1)
      as (value' & w1 & Hvalue).
    { destruct value as [d|p]; simpl; [|by eexists _, _].
      apply Forall_singleton in Hv as [a Ha].
      unfold bind, deref. rewrite Ha. simpl. by eexists _, _. }
    pose proof Hvalue as (Hsub & _)%crop_entry_Returned.
    destruct (IH w1) as (rest' & w' & Hrest').
    { eapply Forall_impl; [exact Hrest|]. simpl. intros l [a Ha].
      exists a. by eapply lookup_weaken. }
    exists ((key, value') :: rest'), w'.
    unfold bind. by rewrite Hvalue, Hrest'.
Qed.

(** The first label entry of the cropped sample is the crop of the first
    label entry of the sample. *)
Lemma cropped_sample_first_label σ ini fin s out image :
  cropped_sample σ ini fin s out →
  first_label_loop (values s) = Some image →
  ∃ image', first_label_loop (values out) = Some image'
            ∧ cropped_entry σ ini fin (Image image) (Image image').
Proof.
  induction 1 as [|[key value] [key' value'] rest rest' [_ Hc] _ IH];
    simpl in *; [done|].
  destruct value as [d|p], value' as [d'|p']; simpl in *; try done.
  destruct Hc as [Ht Ha]. rewrite Ht.
  destruct (decide (type d = LABEL)); [|done].
  intros [= <-]. exists d'. by split.
Qed.

(** C1. Every sample that [extract_patch] returns has a label sub-array
    with a positive sum: the first label-tagged entry of the returned
    sample holds the crop, by the accepted window, of the array held by the
    first label-tagged entry of the input; the sum of that crop is
    positive, and so it has a voxel greater than zero. *)
Theorem extract_patch_foreground rw fuel s patch_size w out w' :
  extract_patch rw fuel s patch_size w = Returned out w' →
  ∃ image label image' patch_label,
    first_label_loop (values s) = Some image
    ∧ store w !! DATA image = Some label
    ∧ first_label_loop (values out) = Some image'
    ∧ store w' !! DATA image' = Some patch_label
    ∧ (∃ k, patch_label
            = crop label (rw (draws w + k)).1 (rw (draws w + k)).2)
    ∧ (0 < ndarray_sum patch_label)%Z
    ∧ ∃ idx, idx ∈ indices (shape patch_label)
             ∧ (0 < item patch_label idx)%Z.
Proof.
  intros (image & label & k & Hfirst & Hl & Hk & [Hacc _] & Hcrop)
    %extract_patch_Returned.
  apply copy_and_crop_Returned in Hcrop as (Hsub & _ & _ & Hc & _).
  destruct (cropped_sample_first_label _ _ _ _ _ _ Hc Hfirst)
    as (image' & Hfirst' & _ & a & Ha & Ha').
  simpl in Hsub. pose proof (lookup_weaken _ _ _ _ Hl Hsub) as Hl'.
  rewrite Ha in Hl'. injection Hl' as ->.
  unfold has_label_in in Hacc. apply bool_decide_eq_true in Hacc.
  eexists image, label, image', _. split_and!; [done..|eauto|done|].
  apply sum_pos_exists, Exists_exists in Hacc as (x & Hx & Hpos).
  apply list_elem_of_fmap in Hx as (idx & -> & Hidx). eauto.
Qed.

(** C2. On a label volume without foreground, where the crop by every
    window has a sum that is not positive, [extract_patch] does not return
    and raises nothing: whatever the fuel, the patch size and the stream of
    proposed windows, the loop is still running when the fuel is spent. *)
Theorem extract_patch_livelock rw fuel s patch_size w image label :
  first_label_loop (values s) = Some image →
  store w !! DATA image = Some label →
  (∀ index_ini index_fin, (ndarray_sum (crop label index_ini index_fin) ≤ 0)%Z) →
  extract_patch rw fuel s patch_size w = OutOfFuel.
Proof.
  intros Hfirst Hl Hnone. unfold extract_patch, bind at 1.
  rewrite get_first_label_image_dict_unfold, Hfirst. simpl.
  unfold bind. erewrite retry_OutOfFuel; [done | done |].
  intros ini fin. unfold has_label_in. apply bool_decide_eq_false.
  specialize (Hnone ini fin). lia.
Qed.

(** C3. On a sample without a label-tagged image entry [extract_patch]
    raises the error of the locator, for every fuel: no window has been
    drawn, the locator has been called once, no array has been made and
    nothing is returned. *)
Theorem extract_patch_no_label rw fuel s patch_size w :
  Forall (λ value, label_tagged value = false) (values s) →
  extract_patch rw fuel s patch_size w
  = Raised (ValueError no_label_message)
      {| store := store w; draws := draws w; locates := S (locates w) |}.
Proof.
  intros Hnone%first_label_loop_None. unfold extract_patch, bind.
  by rewrite get_first_label_image_dict_unfold, Hnone.
Qed.

(** C4. On a sample with a label-tagged image entry the locator returns
    the first such entry in the order of the sample, whatever entries come
    before it, and changes nothing but the count of its calls: the store
    and the stream of windows are as they were. *)
Theorem get_first_label_image_dict_first (s : sample) :
  Exists (λ kv, label_tagged kv.2 = true) s →
  ∃ pre key image post,
    s = pre ++ (key, Image image) :: post
    ∧ type image = LABEL
    ∧ Forall (λ kv, label_tagged kv.2 = false) pre
    ∧ ∀ w, get_first_label_image_dict s w
           = Returned image {| store := store w; draws := draws w;
                               locates := S (locates w) |}.
Proof.
  intros Hex.
  destruct (first_label_loop (values s)) as [image|] eqn:Hfirst.
  - pose proof Hfirst as (pre & post & Hvals & Ht & Hpre)%first_label_loop_Some.
    unfold values in Hvals. apply fmap_app_inv in Hvals as (pre' & rest & -> & Hrest & ->).
    symmetry in Hrest. apply fmap_cons_inv in Hrest as ([key v] & post' & Hv & -> & ->).
    simpl in Hv. subst v.
    exists pre', key, image, post'. split_and!; try done.
    + by apply Forall_fmap in Hpre.
    + intros w. by rewrite get_first_label_image_dict_unfold, Hfirst.
  - apply first_label_loop_None in Hfirst. unfold values in Hfirst.
    apply Forall_fmap in Hfirst. apply Exists_exists in Hex as (kv & Hin & Hkv).
    rewrite Forall_forall in Hfirst. specialize (Hfirst kv Hin). simpl in Hfirst.
    congruence.
Qed.

(** C5. Every entry of a sample that [extract_patch] returns is the entry
    of the input cropped by one and the same window, the window whose crop
    of the label passed the acceptance test (the first such window of the
    stream): an image entry holds the crop of the input array by that
    window, under the same key and tag, and any other entry is the input
    entry. *)
Theorem extract_patch_same_window rw fuel s patch_size w out w' :
  extract_patch rw fuel s patch_size w = Returned out w' →
  ∃ image label k index_ini index_fin,
    first_label_loop (values s) = Some image
    ∧ store w !! DATA image = Some label
    ∧ first_accept rw label (draws w) k
    ∧ rw (draws w + k) = (index_ini, index_fin)
    ∧ has_label_in label index_ini index_fin = true
    ∧ store w ⊆ store w'
    ∧ cropped_sample (store w') index_ini index_fin s out.
Proof.
  intros (image & label & k & Hfirst & Hl & Hk & Hfa & Hcrop)
    %extract_patch_Returned.
  apply copy_and_crop_Returned in Hcrop as (Hsub & _ & _ & Hc & _).
  exists image, label, k, (rw (draws w + k)).1, (rw (draws w + k)).2.
  split_and!; try done; [by destruct (rw (draws w + k)) | by destruct Hfa].
Qed.

(** C6. When every window of the generator is a crop window for the
    spatial extent of the images and the patch size, every image entry of
    a sample that [extract_patch] returns holds an array whose spatial
    shape is the patch size, after the channel axes of the input array. *)
Theorem extract_patch_shape rw fuel s patch_size extent w out w' :
  (∀ n, valid_window extent patch_size (rw n)) →
  Forall (λ l, ∃ a lead, store w !! l = Some a ∧ shape a = lead ++ extent)
         (arrays s) →
  extract_patch rw fuel s patch_size w = Returned out w' →
  Forall2 (λ kv kv', patch_shaped (store w) (store w') extent patch_size
                       kv.2 kv'.2) s out.
Proof.
  intros Hvalid Hshapes
    (image & label & k & _ & _ & _ & _ & Hcrop)%extract_patch_Returned.
  apply copy_and_crop_Returned in Hcrop as (Hsub & _ & _ & Hc & _).
  simpl in Hsub. destruct (Hvalid (draws w + k)) as (Hlen & Hfin & Hfit).
  destruct (rw (draws w + k)) as [ini fin]. simpl in *. subst fin.
  clear Hvalid. induction Hc as [|[key value] [key' value'] rest rest' [_ Hv] _ IH];
    [constructor|].
  unfold arrays in Hshapes. simpl in Hshapes. fold (arrays rest) in Hshapes.
  apply Forall_app in Hshapes as [Hhead Hrest].
  constructor; [|by apply IH]. simpl in *.
  destruct value as [d|p], value' as [d'|p']; simpl in *; try done.
  destruct Hv as (_ & a & Ha & Ha').
  apply Forall_singleton in Hhead as (a0 & lead & Ha0 & Hshape).
  pose proof (lookup_weaken _ _ _ _ Ha0 Hsub). simplify_eq.
  exists a, (crop a ini (zip_with Nat.add ini patch_size)), lead.
  split_and!; try done. by apply (crop_shape _ _ extent).
Qed.

Lemma crop_entry_Raised value ini fin w e w' :
  crop_entry value ini fin w = Raised e w' → w' = w.
Proof.
  destruct value as [d|p]; simpl; [|done].
  unfold bind, deref. by destruct (store w !! DATA d); [|intros [= _ <-]].
Qed.

Lemma copy_and_crop_Raised s ini fin w e w' :
  copy_and_crop s ini fin w = Raised e w' → store w ⊆ store w'.
Proof.
  revert w. induction s as [|[key value] rest IH]; intros w; simpl; [done|].
  intros [Hv | (value' & w1 & Hv & H)]%bind_Raised.
  - by apply crop_entry_Raised in Hv as ->.
  - apply crop_entry_Returned in Hv as (Hsub & _).
    apply bind_Raised in H as [H | (rest' & w2 & _ & H)]; [|done].
    etrans; [done | by eapply IH].
Qed.

(** A call that raises leaves every array as it was, too. *)
Lemma extract_patch_Raised_store rw fuel s patch_size w e w' :
  extract_patch rw fuel s patch_size w = Raised e w' →
  store w ⊆ store w'.
Proof.
  unfold extract_patch.
  intros [H | (image & w1 & Hloc & H)]%bind_Raised.
  - unfold get_first_label_image_dict in H.
    by destruct (first_label_loop (values s)); [|injection H as _ <-].
  - unfold get_first_label_image_dict in Hloc.
    destruct (first_label_loop (values s)); [|done].
    injection Hloc as -> <-.
    apply bind_Raised in H as [H | ([ini fin] & w2 & Hretry & H)].
    + destruct (store w !! DATA image) as [label|] eqn:Hl.
      * by eapply retry_not_Raised in H; [|simpl; eauto].
      * destruct fuel as [|fuel]; [done|].
        rewrite retry_dangling in H by done. by injection H as _ <-.
    + apply retry_Returned in Hretry as (label & k & _ & _ & _ & _ & ->).
      by apply copy_and_crop_Raised in H.
Qed.

(** C7. A call of [extract_patch] that returns has changed no array of
    the store it was given, so every array of the input sample has the
    value it had; and the arrays of the returned sample are new objects,
    distinct from each other and from every array there was before. *)
Theorem extract_patch_no_mutation rw fuel s patch_size w out w' :
  extract_patch rw fuel s patch_size w = Returned out w' →
  (∀ l a, store w !! l = Some a → store w' !! l = Some a)
  ∧ Forall (λ l, (l ∉ dom (store w)) ∧ l ∈ dom (store w')) (arrays out)
  ∧ NoDup (arrays out).
Proof.
  intros (image & label & k & _ & _ & _ & _ & Hcrop)%extract_patch_Returned.
  apply copy_and_crop_Returned in Hcrop as (Hsub & _ & _ & _ & Hnew & Hnd).
  simpl in *. split_and!; [|done..].
  intros l a Hl. by eapply lookup_weaken.
Qed.

(** C8. On a label array without negative voxels, the acceptance test of
    a window holds exactly when the crop by the window has a voxel greater
    than zero. *)
Theorem has_label_in_iff_foreground label index_ini index_fin :
  (∀ idx, idx ∈ indices (shape label) → (0 ≤ item label idx)%Z) →
  has_label_in label index_ini index_fin = true
  ↔ ∃ idx, idx ∈ indices (shape (crop label index_ini index_fin))
           ∧ (0 < item (crop label index_ini index_fin) idx)%Z.
Proof.
  intros Hnonneg. unfold has_label_in, ndarray_sum.
  rewrite bool_decide_eq_true, sum_pos_iff.
  - rewrite Exists_fmap, Exists_exists. done.
  - apply Forall_fmap, Forall_forall. intros idx Hidx. simpl.
    apply Hnonneg. by apply crop_index_in_range in Hidx.
Qed.

(** ** The generator *)

Lemma next_running rw fuel g w :
  gi_state g ≠ GEN_CLOSED →
  next rw fuel g w
  = as_next (gi_sample g) (gi_patch_size g)
      (extract_patch rw fuel (gi_sample g) (gi_patch_size g) w).
Proof.
  intros Hg. unfold next, as_next, set_state.
  by destruct (gi_state g), (extract_patch _ _ _ _ _).
Qed.

Lemma nth_next_running rw n fuel g w :
  gi_state g ≠ GEN_CLOSED →
  nth_next rw n fuel g w
  = as_next (gi_sample g) (gi_patch_size g)
      (nth_call rw n fuel (gi_sample g) (gi_patch_size g) w).
Proof.
  revert g w. induction n as [|n IH]; intros g w Hg; simpl.
  - by apply next_running.
  - rewrite next_running by done. unfold bind.
    destruct (extract_patch _ _ _ _ _) as [value w1|e w1|]; simpl; [|done..].
    by rewrite IH.
Qed.

(** C9. The generator made for a sample and a patch size yields, at its
    [n]-th resumption for every [n], what the [n]-th of a series of calls
    of [extract_patch] on that sample and patch size comes to, each call
    starting in the world the one before left; its frame holds the sample
    and the patch size and nothing else; and it never stops of itself. *)
Theorem extract_patch_generator_nth rw n fuel s patch_size w :
  nth_next rw n fuel (extract_patch_generator s patch_size) w
  = as_next s patch_size (nth_call rw n fuel s patch_size w)
  ∧ ∀ g' w', nth_next rw n fuel (extract_patch_generator s patch_size) w
             ≠ StopIteration g' w'.
Proof.
  assert (nth_next rw n fuel (extract_patch_generator s patch_size) w
          = as_next s patch_size (nth_call rw n fuel s patch_size w)) as ->.
  { by rewrite nth_next_running. }
  split; [done|]. intros g' w'.
  by destruct (nth_call _ _ _ _ _ _).
Qed.

(** ** Determinism *)

Lemma cropped_sample_read σ σ' ini fin s out vals :
  σ ⊆ σ' →
  cropped_sample σ' ini fin s out →
  read_sample σ s = Some vals →
  read_sample σ' out = Some (prod_map id (crop_value ini fin) <$> vals).
Proof.
  intros Hsub Hc Hread. unfold read_sample in *.
  apply mapM_Some in Hread. apply mapM_Some, Forall2_fmap_r.
  revert vals Hread.
  induction Hc as [|[key value] [key' value'] rest rest' [Hk Hv] _ IH];
    intros vals Hread.
  - apply Forall2_nil_inv_l in Hread as ->. constructor.
  - apply Forall2_cons_inv_l in Hread as ([key0 v0] & vals' & Hhead & Hread & ->).
    constructor; [|by apply IH]. simpl in *. subst key'.
    destruct value as [d|p], value' as [d'|p']; simpl in *; try done.
    + destruct Hv as (Ht & a & Ha & Ha').
      destruct (σ !! DATA d) as [a0|] eqn:Ha0; simplify_eq/=.
      pose proof (lookup_weaken _ _ _ _ Ha0 Hsub). simplify_eq.
      by rewrite Ha', Ht.
    + by simplify_eq.
Qed.

Lemma read_sample_first_label σ s vals image :
  read_sample σ s = Some vals →
  first_label_loop (values s) = Some image →
  is_Some (σ !! DATA image).
Proof.
  intros Hread (pre & post & Hvals & _)%first_label_loop_Some.
  unfold read_sample in Hread. apply mapM_Some in Hread.
  unfold values in Hvals.
  apply fmap_app_inv in Hvals as (pre' & rest & _ & Hrest & ->).
  symmetry in Hrest.
  apply fmap_cons_inv in Hrest as ([key v] & post' & Hv & _ & ->).
  simpl in Hv. subst v.
  apply Forall2_app_inv_l in Hread as (? & ? & _ & Hread & _).
  apply Forall2_cons_inv_l in Hread as (? & ? & Hhead & _). simpl in Hhead.
  by destruct (σ !! DATA image).
Qed.

Lemma read_sample_lookup σ1 σ2 s vals key image :
  read_sample σ1 s = Some vals →
  read_sample σ2 s = Some vals →
  (key, Image image) ∈ s →
  σ1 !! DATA image = σ2 !! DATA image.
Proof.
  unfold read_sample. intros H1%mapM_Some H2%mapM_Some Hin.
  revert H2. induction H1 as [|kv v rest vals' Hkv _ IH]; intros H2;
    [by apply elem_of_nil in Hin|].
  apply Forall2_cons_1 in H2 as [Hkv2 H2].
  apply elem_of_cons in Hin as [<-|Hin]; [|by apply IH].
  simpl in *.
  destruct (σ1 !! DATA image), (σ2 !! DATA image); simplify_eq/=; done.
Qed.

Lemma first_label_loop_elem s image :
  first_label_loop (values s) = Some image → ∃ key, (key, Image image) ∈ s.
Proof.
  intros (pre & post & Hvals & _)%first_label_loop_Some.
  assert (Image image ∈ values s) as Hin by (rewrite Hvals; set_solver).
  apply list_elem_of_fmap in Hin as ([key v] & Hv & Hin). simpl in Hv.
  subst v. eauto.
Qed.

Lemma first_accept_ext rw1 rw2 label base1 base2 k :
  (∀ n, rw1 (base1 + n) = rw2 (base2 + n)) →
  first_accept rw2 label base2 k → first_accept rw1 label base1 k.
Proof.
  intros Hrw [Hk Hj]. split.
  - by rewrite Hrw.
  - intros j ?. rewrite Hrw. by apply Hj.
Qed.

(** C10. Two calls of [extract_patch] on the same sample, by value, and
    the same patch size, to which the generator hands the same windows in
    the same order, and which both return, have drawn the same number of
    windows, the rejected ones and then the first that the acceptance test
    lets through, and their results read the same, entry by entry: the
    sample cropped by that window.  Each call has called the locator
    once. *)
Theorem extract_patch_deterministic
    rw1 rw2 fuel1 fuel2 s patch_size w1 w2 vals out1 w1' out2 w2' :
  read_sample (store w1) s = Some vals →
  read_sample (store w2) s = Some vals →
  (∀ n, rw1 (draws w1 + n) = rw2 (draws w2 + n)) →
  extract_patch rw1 fuel1 s patch_size w1 = Returned out1 w1' →
  extract_patch rw2 fuel2 s patch_size w2 = Returned out2 w2' →
  ∃ label k index_ini index_fin,
    first_accept rw1 label (draws w1) k
    ∧ first_accept rw2 label (draws w2) k
    ∧ rw1 (draws w1 + k) = (index_ini, index_fin)
    ∧ rw2 (draws w2 + k) = (index_ini, index_fin)
    ∧ draws w1' = draws w1 + S k ∧ draws w2' = draws w2 + S k
    ∧ locates w1' = S (locates w1) ∧ locates w2' = S (locates w2)
    ∧ read_sample (store w1') out1
      = Some (prod_map id (crop_value index_ini index_fin) <$> vals)
    ∧ read_sample (store w2') out2 = read_sample (store w1') out1.
Proof.
  intros Hread1 Hread2 Hrw
    (image & label & k & Hfirst & Hl1 & _ & Hfa1 & Hcrop1)%extract_patch_Returned
    (image2 & label2 & k2 & Hfirst2 & Hl2 & _ & Hfa2 & Hcrop2)%extract_patch_Returned.
  rewrite Hfirst in Hfirst2. injection Hfirst2 as <-.
  destruct (first_label_loop_elem _ _ Hfirst) as [key Hin].
  pose proof (read_sample_lookup _ _ _ _ _ _ Hread1 Hread2 Hin) as Heq.
  rewrite Hl1, Hl2 in Heq. injection Heq as <-.
  pose proof (first_accept_ext _ _ _ _ _ _ Hrw Hfa2) as Hfa2'.
  pose proof (first_accept_unique _ _ _ _ _ Hfa1 Hfa2'). subst k2.
  rewrite <- Hrw in Hcrop2.
  destruct (rw1 (draws w1 + k)) as [ini fin] eqn:Hwin. simpl in *.
  apply copy_and_crop_Returned in Hcrop1 as (Hsub1 & Hd1 & Hc1 & Hcs1 & _).
  apply copy_and_crop_Returned in Hcrop2 as (Hsub2 & Hd2 & Hc2 & Hcs2 & _).
  simpl in *.
  exists label, k, ini, fin. split_and!; try done.
  - by rewrite <- Hrw.
  - by eapply cropped_sample_read.
  - erewrite !cropped_sample_read; done.
Qed.

(** A call on a sample whose arrays are in the store, with fuel for the
    windows up to the first accepted one, returns. *)
Lemma extract_patch_returns rw fuel s patch_size w image label k :
  first_label_loop (values s) = Some image →
  store w !! DATA image = Some label →
  Forall (λ l, is_Some (store w !! l)) (arrays s) →
  first_accept rw label (draws w) k →
  k < fuel →
  ∃ out w', extract_patch rw fuel s patch_size w = Returned out w'.
Proof.
  intros Hfirst Hl Hs Hfa Hk.
  erewrite extract_patch_accepts by done.
  by apply copy_and_crop_returns.
Qed.

(** A label array without a positive voxel has no window with a positive
    sum. *)
Lemma crop_sum_nonpos label :
  (∀ idx, idx ∈ indices (shape label) → (item label idx ≤ 0)%Z) →
  ∀ index_ini index_fin, (ndarray_sum (crop label index_ini index_fin) ≤ 0)%Z.
Proof.
  intros Hnone ini fin. unfold ndarray_sum.
  apply sum_nonpos, Forall_fmap, Forall_forall. intros idx Hidx. simpl.
  apply Hnone. by apply crop_index_in_range in Hidx.
Qed.

(** ** The properties on the test data *)

Import Examples.

Example run_subject :
  extract_patch stream 5 subject [2; 2; 2] w0 = Returned patch0 w1.
Proof. vm_compute. reflexivity. Qed.

Example run_subject_again :
  extract_patch late_stream 5 subject [2; 2; 2] w1 = Returned patch1 w2.
Proof. vm_compute. reflexivity. Qed.

Example label_crop_sum :
  ndarray_sum (crop label_map [1; 1; 1] [3; 3; 3]) = 1%Z.
Proof. reflexivity. Qed.

Example rejected_crop_sum :
  ndarray_sum (crop label_map [0; 0; 0] [2; 2; 2]) = 0%Z.
Proof. reflexivity. Qed.

Example scan_crop_shape :
  shape (crop scan [1; 1; 1] [3; 3; 3]) = [2; 2; 2; 2].
Proof. reflexivity. Qed.

Example clipped_crop_shape :
  shape (crop scan [2; 0; 1] [4; 5; 2]) = [2; 1; 3; 1].
Proof. reflexivity. Qed.

Lemma extract_patch_foreground_witness :
  extract_patch stream 5 subject [2; 2; 2] w0 = Returned patch0 w1
  ∧ ∃ image label image' patch_label,
      first_label_loop (values subject) = Some image
      ∧ store w0 !! DATA image = Some label
      ∧ first_label_loop (values patch0) = Some image'
      ∧ store w1 !! DATA image' = Some patch_label
      ∧ (∃ k, patch_label
              = crop label (stream (draws w0 + k)).1 (stream (draws w0 + k)).2)
      ∧ (0 < ndarray_sum patch_label)%Z
      ∧ ∃ idx, idx ∈ indices (shape patch_label)
               ∧ (0 < item patch_label idx)%Z.
Proof.
  split; [vm_compute; reflexivity|].
  apply (extract_patch_foreground stream 5 subject [2; 2; 2] w0 patch0 w1).
  vm_compute; reflexivity.
Defined.

Lemma extract_patch_livelock_witness :
  (first_label_loop (values blank_subject) = Some (ImageDict 3%positive LABEL)
   ∧ store w0 !! 3%positive = Some empty_map
   ∧ ∀ index_ini index_fin,
       (ndarray_sum (crop empty_map index_ini index_fin) ≤ 0)%Z)
  ∧ extract_patch stream 1000 blank_subject [2; 2; 2] w0 = OutOfFuel.
Proof.
  assert (∀ index_ini index_fin,
            (ndarray_sum (crop empty_map index_ini index_fin) ≤ 0)%Z) as Hnone.
  { apply crop_sum_nonpos. intros idx _. simpl. lia. }
  split; [split_and!; [reflexivity | reflexivity | exact Hnone]|].
  apply (extract_patch_livelock stream 1000 blank_subject [2; 2; 2] w0
           (ImageDict 3%positive LABEL) empty_map);
    [reflexivity | reflexivity | exact Hnone].
Defined.

Lemma extract_patch_no_label_witness :
  Forall (λ value, label_tagged value = false) (values no_label_subject)
  ∧ extract_patch stream 5 no_label_subject [2; 2; 2] w0
    = Raised (ValueError no_label_message)
        {| store := store0; draws := 0; locates := 1 |}.
Proof.
  assert (Forall (λ value, label_tagged value = false)
                 (values no_label_subject)) as Hnone.
  { repeat constructor. }
  split; [exact Hnone|].
  apply (extract_patch_no_label stream 5 no_label_subject [2; 2; 2] w0 Hnone).
Defined.

Lemma get_first_label_image_dict_first_witness :
  Exists (λ kv, label_tagged kv.2 = true) subject
  ∧ ∃ pre key image post,
      subject = pre ++ (key, Image image) :: post
      ∧ type image = LABEL
      ∧ Forall (λ kv, label_tagged kv.2 = false) pre
      ∧ ∀ w, get_first_label_image_dict subject w
             = Returned image {| store := store w; draws := draws w;
                                 locates := S (locates w) |}.
Proof.
  assert (Exists (λ kv, label_tagged kv.2 = true) subject) as Hex.
  { do 2 apply Exists_cons_tl. apply Exists_cons_hd. reflexivity. }
  split; [exact Hex|].
  apply (get_first_label_image_dict_first subject Hex).
Defined.

Lemma extract_patch_same_window_witness :
  extract_patch stream 5 subject [2; 2; 2] w0 = Returned patch0 w1
  ∧ ∃ image label k index_ini index_fin,
      first_label_loop (values subject) = Some image
      ∧ store w0 !! DATA image = Some label
      ∧ first_accept stream label (draws w0) k
      ∧ stream (draws w0 + k) = (index_ini, index_fin)
      ∧ has_label_in label index_ini index_fin = true
      ∧ store w0 ⊆ store w1
      ∧ cropped_sample (store w1) index_ini index_fin subject patch0.
Proof.
  split; [vm_compute; reflexivity|].
  apply (extract_patch_same_window stream 5 subject [2; 2; 2] w0 patch0 w1).
  vm_compute; reflexivity.
Defined.

Lemma extract_patch_shape_witness :
  ((∀ n, valid_window [3; 3; 3] [2; 2; 2] (stream n))
   ∧ Forall (λ l, ∃ a lead, store w0 !! l = Some a ∧ shape a = lead ++ [3; 3; 3])
            (arrays subject)
   ∧ extract_patch stream 5 subject [2; 2; 2] w0 = Returned patch0 w1)
  ∧ Forall2 (λ kv kv', patch_shaped (store w0) (store w1) [3; 3; 3] [2; 2; 2]
                         kv.2 kv'.2) subject patch0.
Proof.
  assert (∀ n, valid_window [3; 3; 3] [2; 2; 2] (stream n)) as Hvalid.
  { intros [|n]; (split_and!; [reflexivity | reflexivity |]);
      simpl; repeat constructor; lia. }
  assert (Forall (λ l, ∃ a lead, store w0 !! l = Some a
                                 ∧ shape a = lead ++ [3; 3; 3])
                 (arrays subject)) as Hshapes.
  { repeat constructor.
    - exists scan, [2]. split; reflexivity.
    - exists label_map, [1]. split; reflexivity.
    - exists empty_map, [1]. split; reflexivity. }
  assert (extract_patch stream 5 subject [2; 2; 2] w0 = Returned patch0 w1)
    as Hrun by (vm_compute; reflexivity).
  split; [split_and!; [exact Hvalid | exact Hshapes | exact Hrun]|].
  apply (extract_patch_shape stream 5 subject [2; 2; 2] [3; 3; 3] w0 patch0 w1
           Hvalid Hshapes Hrun).
Defined.

Lemma extract_patch_no_mutation_witness :
  extract_patch stream 5 subject [2; 2; 2] w0 = Returned patch0 w1
  ∧ (∀ l a, store w0 !! l = Some a → store w1 !! l = Some a)
  ∧ Forall (λ l, (l ∉ dom (store w0)) ∧ l ∈ dom (store w1)) (arrays patch0)
  ∧ NoDup (arrays patch0).
Proof.
  split; [vm_compute; reflexivity|].
  apply (extract_patch_no_mutation stream 5 subject [2; 2; 2] w0 patch0 w1).
  vm_compute; reflexivity.
Defined.

Lemma has_label_in_iff_foreground_witness :
  (∀ idx, idx ∈ indices (shape label_map) → (0 ≤ item label_map idx)%Z)
  ∧ (has_label_in label_map [1; 1; 1] [3; 3; 3] = true
     ↔ ∃ idx, idx ∈ indices (shape (crop label_map [1; 1; 1] [3; 3; 3]))
              ∧ (0 < item (crop label_map [1; 1; 1]%nat [3; 3; 3]%nat) idx)%Z).
Proof.
  assert (∀ idx, idx ∈ indices (shape label_map) → (0 ≤ item label_map idx)%Z)
    as Hnonneg.
  { intros idx _. simpl. case_decide; lia. }
  split; [exact Hnonneg|].
  apply (has_label_in_iff_foreground label_map [1; 1; 1] [3; 3; 3] Hnonneg).
Defined.

Lemma extract_patch_deterministic_witness :
  (read_sample (store w0) subject = Some subject_values
   ∧ read_sample (store w1) subject = Some subject_values
   ∧ (∀ n, stream (draws w0 + n) = late_stream (draws w1 + n))
   ∧ extract_patch stream 5 subject [2; 2; 2] w0 = Returned patch0 w1
   ∧ extract_patch late_stream 9 subject [2; 2; 2] w1 = Returned patch1 w2)
  ∧ ∃ label k index_ini index_fin,
      first_accept stream label (draws w0) k
      ∧ first_accept late_stream label (draws w1) k
      ∧ stream (draws w0 + k) = (index_ini, index_fin)
      ∧ late_stream (draws w1 + k) = (index_ini, index_fin)
      ∧ draws w1 = draws w0 + S k ∧ draws w2 = draws w1 + S k
      ∧ locates w1 = S (locates w0) ∧ locates w2 = S (locates w1)
      ∧ read_sample (store w1) patch0
        = Some (prod_map id (crop_value index_ini index_fin) <$> subject_values)
      ∧ read_sample (store w2) patch1 = read_sample (store w1) patch0.
Proof.
  assert (∀ n, stream (draws w0 + n) = late_stream (draws w1 + n)) as Hrw.
  { intros n. unfold late_stream. simpl. f_equal. lia. }
  assert (read_sample (store w0) subject = Some subject_values) as Hread0
    by reflexivity.
  assert (read_sample (store w1) subject = Some subject_values) as Hread1
    by reflexivity.
  assert (extract_patch stream 5 subject [2; 2; 2] w0 = Returned patch0 w1)
    as Hrun0 by (vm_compute; reflexivity).
  assert (extract_patch late_stream 9 subject [2; 2; 2] w1 = Returned patch1 w2)
    as Hrun1 by (vm_compute; reflexivity).
  split; [split_and!; assumption|].
  apply (extract_patch_deterministic stream late_stream 5 9 subject [2; 2; 2]
           w0 w1 subject_values patch0 w1 patch1 w2
           Hread0 Hread1 Hrw Hrun0 Hrun1).
Defined.


(** * Further properties of the sampler *)

(** ** The label locator as a search *)

Lemma first_label_loop_app vals1 vals2 :
  first_label_loop (vals1 ++ vals2)
  = match first_label_loop vals1 with
    | Some image => Some image
    | None => first_label_loop vals2
    end.
Proof.
  induction vals1 as [|value rest IH]; [done|].
  destruct value as [d|p]; simpl; [|done].
  by destruct (decide (type d = LABEL)).
Qed.

(** X1. The locator is a search for the head of the label-tagged image
    entries of the sample, taken in the order of the sample: it returns
    that head when there is one and raises its [ValueError] when there is
    none, and in both cases the store and the stream are as they were. *)
Theorem get_first_label_image_dict_head (s : sample) (w : world) :
  get_first_label_image_dict s w
  = let w' := {| store := store w; draws := draws w;
                 locates := S (locates w) |} in
    match head (label_images (values s)) with
    | Some image => Returned image w'
    | None => Raised (ValueError no_label_message) w'
    end.
Proof.
  rewrite get_first_label_image_dict_unfold. simpl.
  replace (head (label_images (values s)))
    with (first_label_loop (values s)); [done|].
  induction (values s) as [|value rest IH]; [done|].
  destruct value as [d|p]; simpl; [|done].
  by destruct (decide (type d = LABEL)).
Qed.

(** X2. Locating the label in a sample made of two parts: the label of
    the first part if it has one, whatever the second part holds, and
    otherwise what the locator finds in the second part. *)
Theorem get_first_label_image_dict_app (s1 s2 : sample) (w : world) :
  get_first_label_image_dict (s1 ++ s2) w
  = match get_first_label_image_dict s1 w with
    | Returned image w' => Returned image w'
    | Raised _ _ => get_first_label_image_dict s2 w
    | OutOfFuel => OutOfFuel
    end.
Proof.
  rewrite !get_first_label_image_dict_unfold. unfold values.
  rewrite fmap_app, first_label_loop_app. simpl.
  by destruct (first_label_loop (snd <$> s1)).
Qed.

(** ** The number of turns of the loop *)

(** As long as the windows are rejected the loop goes on. *)
Lemma retry_all_rejected rw fuel l s patch_size w label :
  store w !! l = Some label →
  (∀ j, j < fuel →
     has_label_in label (rw (draws w + j)).1 (rw (draws w + j)).2 = false) →
  retry rw fuel l s patch_size w = OutOfFuel.
Proof.
  revert w. induction fuel as [|fuel IH]; intros w Hl Hrej; [done|].
  rewrite (retry_step _ _ _ _ _ _ label) by done. simpl.
  pose proof (Hrej 0 ltac:(lia)) as H0. rewrite Nat.add_0_r in H0.
  rewrite H0. apply IH; [done|]. simpl. intros j Hj.
  replace (S (draws w + j)) with (draws w + S j) by lia. apply Hrej. lia.
Qed.

(** X3. When the first window of the stream that passes the acceptance
    test comes after [k] rejected ones, the call makes exactly [k + 1]
    turns of its loop: with fuel for fewer turns it is still running, and
    with fuel for [k + 1] turns or more it has called the locator once,
    drawn [k + 1] windows and goes on to crop the sample by the last of
    them, whatever the fuel. *)
Theorem extract_patch_turns rw fuel s patch_size w image label k :
  first_label_loop (values s) = Some image →
  store w !! DATA image = Some label →
  first_accept rw label (draws w) k →
  extract_patch rw fuel s patch_size w
  = if decide (k < fuel)
    then copy_and_crop s (rw (draws w + k)).1 (rw (draws w + k)).2
           {| store := store w; draws := draws w + S k;
              locates := S (locates w) |}
    else OutOfFuel.
Proof.
  intros Hfirst Hl Hfa. unfold extract_patch, bind at 1.
  rewrite get_first_label_image_dict_unfold, Hfirst. simpl. unfold bind.
  destruct (decide (k < fuel)) as [Hk|Hk].
  - erewrite retry_terminates; [|done|done|done]. simpl.
    by destruct (rw (draws w + k)).
  - erewrite retry_all_rejected; [done|done|]. simpl.
    intros j Hj. destruct Hfa as [_ Hrej]. apply Hrej. lia.
Qed.

Lemma extract_patch_turns_witness :
  (first_label_loop (values subject) = Some (ImageDict 2%positive LABEL)
   ∧ store w0 !! 2%positive = Some label_map
   ∧ first_accept stream label_map (draws w0) 1)
  ∧ extract_patch stream 1 subject [2; 2; 2] w0
    = if decide (1 < 1)
      then copy_and_crop subject (stream (draws w0 + 1)).1
             (stream (draws w0 + 1)).2
             {| store := store w0; draws := draws w0 + 2;
                locates := S (locates w0) |}
      else OutOfFuel.
Proof.
  assert (first_accept stream label_map (draws w0) 1) as Hfa.
  { split; [reflexivity|]. intros [|j] Hj; [reflexivity | lia]. }
  split; [split_and!; [reflexivity | reflexivity | exact Hfa]|].
  apply (extract_patch_turns stream 1 subject [2; 2; 2] w0
           (ImageDict 2%positive LABEL) label_map 1);
    [reflexivity | reflexivity | exact Hfa].
Defined.

(** ** The errors of a call *)

Lemma arrays_elem key image (s : sample) :
  (key, Image image) ∈ s → DATA image ∈ arrays s.
Proof.
  intros Hin. unfold arrays. apply list_elem_of_bind.
  exists (key, Image image). split; [|done]. simpl. by left.
Qed.

Lemma copy_and_crop_not_Raised s ini fin w e w' :
  Forall (λ l, is_Some (store w !! l)) (arrays s) →
  copy_and_crop s ini fin w ≠ Raised e w'.
Proof.
  intros Hs H.
  destruct (copy_and_crop_returns s ini fin w Hs) as (out & w1 & Hret).
  congruence.
Qed.

(** X4. On a sample whose arrays are all in the store, a call raises
    nothing but the error of the locator, and only when the sample has no
    label-tagged image entry; no window has been drawn then, and the store
    is as it was. *)
Theorem extract_patch_Raised_no_label rw fuel s patch_size w e w' :
  Forall (λ l, is_Some (store w !! l)) (arrays s) →
  extract_patch rw fuel s patch_size w = Raised e w' →
  e = ValueError no_label_message
  ∧ Forall (λ value, label_tagged value = false) (values s)
  ∧ w' = {| store := store w; draws := draws w; locates := S (locates w) |}.
Proof.
  intros Hs. unfold extract_patch.
  intros [H | (image & w1 & Hloc & H)]%bind_Raised.
  - rewrite get_first_label_image_dict_unfold in H. simpl in H.
    destruct (first_label_loop (values s)) eqn:Hfirst; [done|].
    injection H as <- <-. split_and!; [done | | done].
    by apply first_label_loop_None.
  - exfalso. rewrite get_first_label_image_dict_unfold in Hloc. simpl in Hloc.
    destruct (first_label_loop (values s)) as [image'|] eqn:Hfirst; [|done].
    injection Hloc as -> <-.
    destruct (first_label_loop_elem _ _ Hfirst) as [key Hin].
    apply arrays_elem in Hin. rewrite Forall_forall in Hs.
    pose proof (Hs _ Hin) as Hlabel.
    apply bind_Raised in H as [H | ([ini fin] & w2 & Hretry & H)].
    + by eapply retry_not_Raised in H.
    + apply retry_Returned in Hretry as (label & k & _ & _ & _ & _ & ->).
      eapply copy_and_crop_not_Raised in H; [done|]. simpl.
      by apply Forall_forall.
Qed.

Lemma extract_patch_Raised_no_label_witness :
  (Forall (λ l, is_Some (store w0 !! l)) (arrays no_label_subject)
   ∧ extract_patch stream 5 no_label_subject [2; 2; 2] w0
     = Raised (ValueError no_label_message)
         {| store := store0; draws := 0; locates := 1 |})
  ∧ ValueError no_label_message = ValueError no_label_message
  ∧ Forall (λ value, label_tagged value = false) (values no_label_subject)
  ∧ {| store := store0; draws := 0; locates := 1 |}
    = {| store := store w0; draws := draws w0; locates := S (locates w0) |}.
Proof.
  assert (Forall (λ l, is_Some (store w0 !! l)) (arrays no_label_subject))
    as Hs.
  { repeat constructor. by exists scan. }
  assert (extract_patch stream 5 no_label_subject [2; 2; 2] w0
          = Raised (ValueError no_label_message)
              {| store := store0; draws := 0; locates := 1 |}) as Hrun
    by reflexivity.
  split; [by split|].
  apply (extract_patch_Raised_no_label stream 5 no_label_subject [2; 2; 2] w0
           _ _ Hs Hrun).
Defined.

(** ** The acceptance test and the voxels of the window *)

Lemma slice_len_window (i f n j : nat) :
  j < slice_len i f n → i ≤ i + j < f.
Proof. unfold slice_len. lia. Qed.

Lemma take_window_length {A} (bounds : list A) (n : nat) :
  take (n - (n - length bounds)) bounds = take n bounds.
Proof.
  destruct (decide (n ≤ length bounds)) as [Hn|Hn].
  - by replace (n - (n - length bounds)) with n by lia.
  - rewrite !take_ge; [done | lia | lia].
Qed.

Lemma crop_extent_window (bounds : list (nat * nat)) (ext idx2 : list nat) :
  Forall2 lt idx2 (crop_extent bounds ext) →
  Forall2 (λ b x, b.1 ≤ x < b.2)
          (take (length idx2) bounds) (zip_with Nat.add bounds.*1 idx2).
Proof.
  revert ext idx2. induction bounds as [|[i f] bounds IH]; intros ext idx2 H.
  - apply Forall2_nil_inv_r in H as ->. constructor.
  - destruct ext as [|n ext]; simpl in H.
    + apply Forall2_nil_inv_r in H as ->. constructor.
    + apply Forall2_cons_inv_r in H as (j & tl & Hj & Htl & ->). simpl.
      constructor; [by eapply slice_len_window | by eapply IH].
Qed.

(** An index of the crop reads the array inside the window. *)
Lemma crop_index_window (a : ndarray) (ini fin cidx : list nat) :
  cidx ∈ indices (shape (crop a ini fin)) →
  let lead := length (shape a) - length (zip ini fin) in
  in_window ini fin
    (take lead cidx ++ zip_with Nat.add (zip ini fin).*1 (drop lead cidx)).
Proof.
  intros H lead. pose proof (crop_index_in_range _ _ _ _ H) as Hin.
  fold lead in Hin. apply elem_of_indices, Forall2_length in Hin.
  apply elem_of_indices in H. simpl in H. fold lead in H.
  apply Forall2_app_inv_r in H as (idx1 & idx2 & H1 & H2 & ->).
  assert (length idx1 = lead) as Hl1.
  { apply Forall2_length in H1. rewrite H1, length_take. lia. }
  rewrite take_app_length', drop_app_length' in Hin |- * by done.
  unfold in_window. rewrite Hin. fold lead.
  rewrite drop_app_length' by done.
  assert (length idx2 = length (shape a) - lead) as Hl2.
  { pose proof (Forall2_length _ _ _ H2) as Hlen2.
    unfold crop_extent in Hlen2. rewrite length_zip_with in Hlen2.
    rewrite length_app, length_zip_with, length_fmap in Hin. lia. }
  rewrite <- take_window_length. fold lead. rewrite <- Hl2.
  by eapply crop_extent_window.
Qed.

Lemma window_crop_index (bounds : list (nat * nat)) (sp ext : list nat) :
  Forall2 lt sp ext →
  Forall2 (λ b x, b.1 ≤ x < b.2) (take (length sp) bounds) sp →
  Forall2 lt (zip_with Nat.sub sp bounds.*1) (crop_extent bounds ext)
  ∧ zip_with Nat.add bounds.*1 (zip_with Nat.sub sp bounds.*1) = sp.
Proof.
  intros Hext. revert bounds.
  induction Hext as [|x n sp ext Hx _ IH]; intros bounds Hwin.
  - by destruct bounds.
  - destruct bounds as [|[i f] bounds]; simpl in Hwin.
    { by apply Forall2_nil_inv_l in Hwin. }
    apply Forall2_cons_1 in Hwin as [Hb Hwin]. simpl in Hb.
    destruct (IH _ Hwin) as [Hlt Heq]. simpl. split.
    + constructor; [unfold slice_len; simpl; lia | done].
    + f_equal; [lia | done].
Qed.

Lemma has_label_in_crop_voxel label ini fin :
  has_label_in label ini fin = true →
  ∃ cidx, cidx ∈ indices (shape (crop label ini fin))
          ∧ (0 < item (crop label ini fin) cidx)%Z.
Proof.
  unfold has_label_in, ndarray_sum. intros Hacc%bool_decide_eq_true.
  apply sum_pos_exists, Exists_exists in Hacc as (x & Hx & Hpos).
  apply list_elem_of_fmap in Hx as (cidx & -> & Hcidx). eauto.
Qed.

(** X5. A window that passes the acceptance test holds a voxel of the
    label array that is greater than zero, at an index of the array that
    lies in the window; this needs no assumption on the sign of the other
    voxels. *)
Theorem has_label_in_window_voxel label index_ini index_fin :
  has_label_in label index_ini index_fin = true →
  ∃ idx, idx ∈ indices (shape label)
         ∧ in_window index_ini index_fin idx
         ∧ (0 < item label idx)%Z.
Proof.
  intros (cidx & Hcidx & Hpos)%has_label_in_crop_voxel.
  eexists. split_and!; [| |exact Hpos].
  - by apply crop_index_in_range.
  - by apply crop_index_window.
Qed.

Lemma has_label_in_window_voxel_witness :
  has_label_in label_map [1; 1; 1] [3; 3; 3] = true
  ∧ ∃ idx, idx ∈ indices (shape label_map)
           ∧ in_window [1; 1; 1] [3; 3; 3] idx
           ∧ (0 < item label_map idx)%Z.
Proof.
  split; [reflexivity|].
  apply (has_label_in_window_voxel label_map [1; 1; 1] [3; 3; 3]).
  reflexivity.
Defined.

(** A voxel of the array in the window is a voxel of the crop. *)
Lemma window_voxel_crop_index label ini fin idx :
  idx ∈ indices (shape label) →
  in_window ini fin idx →
  ∃ cidx, cidx ∈ indices (shape (crop label ini fin))
          ∧ item (crop label ini fin) cidx = item label idx.
Proof.
  intros Hidx Hwin.
  apply elem_of_indices in Hidx. pose proof (Forall2_length _ _ _ Hidx) as Hlen.
  unfold in_window in Hwin. rewrite Hlen in Hwin.
  set (bounds := zip ini fin) in *.
  set (lead := length (shape label) - length bounds) in *.
  assert (length (drop lead idx) = length (shape label) - lead) as Hsp
    by (rewrite length_drop; lia).
  rewrite <- take_window_length in Hwin. fold lead in Hwin.
  rewrite <- Hsp in Hwin.
  destruct (window_crop_index bounds (drop lead idx) (drop lead (shape label)))
    as [Hlt Heq]; [by apply Forall2_drop | done |].
  exists (take lead idx ++ zip_with Nat.sub (drop lead idx) bounds.*1).
  assert (length (take lead idx) = lead) as Hl1
    by (rewrite length_take; lia).
  split.
  - apply elem_of_indices. simpl. fold bounds lead.
    apply Forall2_app; [by apply Forall2_take | done].
  - simpl. fold bounds lead.
    rewrite take_app_length', drop_app_length' by done.
    by rewrite Heq, take_drop.
Qed.

Lemma crop_nonneg label ini fin :
  (∀ i, i ∈ indices (shape label) → (0 ≤ item label i)%Z) →
  Forall (λ x, 0 ≤ x)%Z
         (item (crop label ini fin) <$> indices (shape (crop label ini fin))).
Proof.
  intros Hnonneg. apply Forall_fmap, Forall_forall. intros cidx Hcidx. simpl.
  apply Hnonneg. by apply crop_index_in_range in Hcidx.
Qed.

(** X6. On a label array without negative voxels, a window in which
    some voxel of the array is greater than zero passes the acceptance
    test. *)
Theorem has_label_in_window_complete label index_ini index_fin idx :
  (∀ i, i ∈ indices (shape label) → (0 ≤ item label i)%Z) →
  idx ∈ indices (shape label) →
  in_window index_ini index_fin idx →
  (0 < item label idx)%Z →
  has_label_in label index_ini index_fin = true.
Proof.
  intros Hnonneg Hidx Hwin Hpos. unfold has_label_in, ndarray_sum.
  rewrite bool_decide_eq_true, sum_pos_iff by by apply crop_nonneg.
  destruct (window_voxel_crop_index _ index_ini index_fin _ Hidx Hwin)
    as (cidx & Hcidx & Hitem).
  rewrite Exists_fmap, Exists_exists. exists cidx.
  split; [done|]. unfold compose. by rewrite Hitem.
Qed.

Lemma has_label_in_window_complete_witness :
  ((∀ i, i ∈ indices (shape label_map) → (0 ≤ item label_map i)%Z)
   ∧ [0; 2; 2; 2] ∈ indices (shape label_map)
   ∧ in_window [1; 1; 1] [3; 3; 3] [0; 2; 2; 2]
   ∧ (0 < item label_map [0; 2; 2; 2]%nat)%Z)
  ∧ has_label_in label_map [1; 1; 1] [3; 3; 3] = true.
Proof.
  assert (∀ i, i ∈ indices (shape label_map) → (0 ≤ item label_map i)%Z)
    as Hnonneg.
  { intros i _. simpl. case_decide; lia. }
  assert ([0; 2; 2; 2] ∈ indices (shape label_map)) as Hidx.
  { apply elem_of_indices. simpl. repeat constructor. }
  assert (in_window [1; 1; 1] [3; 3; 3] [0; 2; 2; 2]) as Hwin.
  { unfold in_window. simpl. repeat constructor. }
  assert (0 < item label_map [0; 2; 2; 2]%nat)%Z as Hpos by reflexivity.
  split; [by split_and!|].
  apply (has_label_in_window_complete label_map [1; 1; 1] [3; 3; 3]
           [0; 2; 2; 2] Hnonneg Hidx Hwin Hpos).
Defined.

(** A window that is empty along an axis of the array is rejected. *)
Lemma empty_window_rejected label ini fin :
  Exists (λ b, b.2 ≤ b.1) (take (length (shape label)) (zip ini fin)) →
  has_label_in label ini fin = false.
Proof.
  intros Hempty. destruct (has_label_in label ini fin) eqn:Hacc; [|done].
  apply has_label_in_crop_voxel in Hacc as (cidx & Hcidx & _).
  pose proof (crop_index_in_range _ _ _ _ Hcidx) as Hin.
  pose proof (crop_index_window _ _ _ _ Hcidx) as Hwin. simpl in Hin, Hwin.
  apply elem_of_indices, Forall2_length in Hin.
  unfold in_window in Hwin. rewrite Hin in Hwin.
  apply Exists_exists in Hempty as (b & Hb & Hle).
  apply list_elem_of_lookup in Hb as [i Hi].
  destruct (Forall2_lookup_l _ _ _ _ _ Hwin Hi) as (x & _ & Hx). lia.
Qed.

(** X7. When every window the generator hands out is empty along some
    axis of the label array, as with a patch size that has a zero in it,
    the call does not return and raises nothing, whatever the fuel. *)
Theorem extract_patch_empty_windows rw fuel s patch_size w image label :
  first_label_loop (values s) = Some image →
  store w !! DATA image = Some label →
  (∀ n, Exists (λ b, b.2 ≤ b.1)
               (take (length (shape label)) (zip (rw n).1 (rw n).2))) →
  extract_patch rw fuel s patch_size w = OutOfFuel.
Proof.
  intros Hfirst Hl Hempty. unfold extract_patch, bind at 1.
  rewrite get_first_label_image_dict_unfold, Hfirst. simpl. unfold bind.
  erewrite retry_all_rejected; [done | done |].
  intros j _. by apply empty_window_rejected.
Qed.

Lemma extract_patch_empty_windows_witness :
  (first_label_loop (values subject) = Some (ImageDict 2%positive LABEL)
   ∧ store w0 !! 2%positive = Some label_map
   ∧ ∀ n, Exists (λ b, b.2 ≤ b.1)
                 (take (length (shape label_map))
                       (zip (empty_stream n).1 (empty_stream n).2)))
  ∧ extract_patch empty_stream 1000 subject [0; 2; 2] w0 = OutOfFuel.
Proof.
  assert (∀ n, Exists (λ b, b.2 ≤ b.1)
                 (take (length (shape label_map))
                       (zip (empty_stream n).1 (empty_stream n).2))) as Hempty.
  { intros n. apply Exists_cons_hd. simpl. lia. }
  split; [split_and!; [reflexivity | reflexivity | exact Hempty]|].
  apply (extract_patch_empty_windows empty_stream 1000 subject [0; 2; 2] w0
           (ImageDict 2%positive LABEL) label_map);
    [reflexivity | reflexivity | exact Hempty].
Defined.

(** ** The generator and its calls *)

(** X8. The first resumption of a generator over a sample without a
    label-tagged image entry raises the error of the locator, with no
    window drawn and the store as it was, and leaves the generator closed:
    every later resumption stops, and touches nothing. *)
Theorem extract_patch_generator_no_label rw fuel s patch_size w :
  Forall (λ value, label_tagged value = false) (values s) →
  ∃ g',
    next rw fuel (extract_patch_generator s patch_size) w
    = Threw (ValueError no_label_message) g'
        {| store := store w; draws := draws w; locates := S (locates w) |}
    ∧ ∀ fuel' w', next rw fuel' g' w' = StopIteration g' w'.
Proof.
  intros Hnone%first_label_loop_None.
  exists (Generator s patch_size GEN_CLOSED). split; [|done].
  unfold next, extract_patch, bind. simpl.
  by rewrite get_first_label_image_dict_unfold, Hnone.
Qed.

Lemma extract_patch_generator_no_label_witness :
  Forall (λ value, label_tagged value = false) (values no_label_subject)
  ∧ ∃ g',
      next stream 5 (extract_patch_generator no_label_subject [2; 2; 2]) w0
      = Threw (ValueError no_label_message) g'
          {| store := store w0; draws := draws w0;
             locates := S (locates w0) |}
      ∧ ∀ fuel' w', next stream fuel' g' w' = StopIteration g' w'.
Proof.
  assert (Forall (λ value, label_tagged value = false)
                 (values no_label_subject)) as Hnone.
  { repeat constructor. }
  split; [exact Hnone|].
  apply (extract_patch_generator_no_label stream 5 no_label_subject
           [2; 2; 2] w0 Hnone).
Defined.

Lemma extract_patch_cost rw fuel s patch_size w out w' :
  extract_patch rw fuel s patch_size w = Returned out w' →
  locates w' = S (locates w)
  ∧ draws w < draws w' ≤ draws w + fuel
  ∧ store w ⊆ store w'.
Proof.
  intros (image & label & k & _ & _ & Hk & _ & Hcrop)%extract_patch_Returned.
  apply copy_and_crop_Returned in Hcrop as (Hsub & Hd & Hl & _).
  simpl in *. split_and!; [done | lia | lia | done].
Qed.

Lemma nth_call_cost rw n fuel s patch_size w out w' :
  nth_call rw n fuel s patch_size w = Returned out w' →
  locates w' = locates w + S n
  ∧ draws w + S n ≤ draws w' ≤ draws w + S n * fuel
  ∧ store w ⊆ store w'.
Proof.
  revert w. induction n as [|n IH]; intros w; simpl.
  - intros (Hl & Hd & Hsub)%extract_patch_cost. split_and!; [lia..|done].
  - intros (out1 & w1 & (Hl1 & Hd1 & Hsub1)%extract_patch_cost & H)
      %bind_Returned.
    apply IH in H as (Hl & Hd & Hsub).
    split_and!; [lia | lia | nia | by etrans].
Qed.

(** X9. When the resumption of the generator that follows [n] yields
    yields too, the [n + 1] elements have cost one call of the locator
    each, at least one drawn window each and at most as many as the fuel
    of a call allows; every array that was in the store at the start is
    still there with its value; and the generator is suspended on the
    same sample and patch size. *)
Theorem extract_patch_generator_cost rw n fuel s patch_size w value g' w' :
  nth_next rw n fuel (extract_patch_generator s patch_size) w
  = Yielded value g' w' →
  g' = Generator s patch_size GEN_SUSPENDED
  ∧ locates w' = locates w + S n
  ∧ draws w + S n ≤ draws w' ≤ draws w + S n * fuel
  ∧ ∀ l a, store w !! l = Some a → store w' !! l = Some a.
Proof.
  rewrite nth_next_running by done. simpl.
  destruct (nth_call rw n fuel s patch_size w) as [out w1| |] eqn:Hcall;
    simpl; [|done..].
  intros [= <- <- <-].
  apply nth_call_cost in Hcall as (Hl & Hd & Hsub).
  split_and!; [done | done | lia | lia |].
  intros l a Ha. by eapply lookup_weaken.
Qed.

Lemma extract_patch_generator_cost_witness :
  nth_next stream 1 5 (extract_patch_generator subject [2; 2; 2]) w0
  = Yielded patch1 (Generator subject [2; 2; 2] GEN_SUSPENDED) w2'
  ∧ Generator subject [2; 2; 2] GEN_SUSPENDED
    = Generator subject [2; 2; 2] GEN_SUSPENDED
  ∧ locates w2' = locates w0 + 2
  ∧ draws w0 + 2 ≤ draws w2' ≤ draws w0 + 2 * 5
  ∧ ∀ l a, store w0 !! l = Some a → store w2' !! l = Some a.
Proof.
  split; [vm_compute; reflexivity|].
  apply (extract_patch_generator_cost stream 1 5 subject [2; 2; 2] w0
           patch1 (Generator subject [2; 2; 2] GEN_SUSPENDED) w2').
  vm_compute; reflexivity.
Defined.

(** ** Larger windows *)

Lemma zip_bounds_le (ini fin ini' fin' : list nat) :
  Forall2 le ini' ini → Forall2 le fin fin' →
  Forall2 (λ b b', b'.1 ≤ b.1 ∧ b.2 ≤ b'.2) (zip ini fin) (zip ini' fin').
Proof.
  intros Hini. revert fin fin'.
  induction Hini as [|i' i ini' ini Hi _ IH]; intros fin fin' Hfin;
    [constructor|].
  destruct Hfin as [|f f' fin fin' Hf Hfin]; [constructor|].
  simpl. constructor; [done | by apply IH].
Qed.

Lemma take_bounds_le (bounds bounds' : list (nat * nat)) (n : nat) (sp : list nat) :
  Forall2 (λ b b', b'.1 ≤ b.1 ∧ b.2 ≤ b'.2) bounds bounds' →
  Forall2 (λ b x, b.1 ≤ x < b.2) (take n bounds) sp →
  Forall2 (λ b x, b.1 ≤ x < b.2) (take n bounds') sp.
Proof.
  intros Hle. revert n sp.
  induction Hle as [|b b' bounds bounds' Hb _ IH]; intros n sp H.
  - by rewrite take_nil in H |- *.
  - destruct n as [|n]; simpl in *.
    { apply Forall2_nil_inv_l in H as ->. constructor. }
    apply Forall2_cons_inv_l in H as (x & sp' & Hx & Hsp & ->).
    constructor; [lia | by apply IH].
Qed.

Lemma in_window_mono (ini fin ini' fin' idx : list nat) :
  Forall2 le ini' ini → Forall2 le fin fin' →
  in_window ini fin idx → in_window ini' fin' idx.
Proof.
  intros Hini Hfin. unfold in_window.
  pose proof (zip_bounds_le _ _ _ _ Hini Hfin) as Hle.
  rewrite <- (Forall2_length _ _ _ Hle). by apply take_bounds_le.
Qed.

(** X10. On a label array without negative voxels the acceptance test
    is monotone in the window: a window that passes it still passes when
    it is made to start earlier or to end later along any axis. *)
Theorem has_label_in_mono label index_ini index_fin index_ini' index_fin' :
  (∀ i, i ∈ indices (shape label) → (0 ≤ item label i)%Z) →
  Forall2 le index_ini' index_ini →
  Forall2 le index_fin index_fin' →
  has_label_in label index_ini index_fin = true →
  has_label_in label index_ini' index_fin' = true.
Proof.
  intros Hnonneg Hini Hfin (cidx & Hcidx & Hpos)%has_label_in_crop_voxel.
  pose proof (crop_index_in_range _ _ _ _ Hcidx) as Hidx.
  pose proof (crop_index_window _ _ _ _ Hcidx) as Hwin.
  rewrite crop_item in Hpos. simpl in Hidx, Hwin, Hpos.
  apply (in_window_mono _ _ _ _ _ Hini Hfin) in Hwin.
  destruct (window_voxel_crop_index _ _ _ _ Hidx Hwin)
    as (cidx' & Hcidx' & Hitem).
  unfold has_label_in, ndarray_sum.
  rewrite bool_decide_eq_true, sum_pos_iff by by apply crop_nonneg.
  rewrite Exists_fmap, Exists_exists. exists cidx'.
  split; [done|]. unfold compose. by rewrite Hitem.
Qed.

Lemma has_label_in_mono_witness :
  ((∀ i, i ∈ indices (shape label_map) → (0 ≤ item label_map i)%Z)
   ∧ Forall2 le [0; 1; 0] [1; 1; 1]
   ∧ Forall2 le [3; 3; 3] [3; 4; 3]
   ∧ has_label_in label_map [1; 1; 1] [3; 3; 3] = true)
  ∧ has_label_in label_map [0; 1; 0] [3; 4; 3] = true.
Proof.
  assert (∀ i, i ∈ indices (shape label_map) → (0 ≤ item label_map i)%Z)
    as Hnonneg.
  { intros i _. simpl. case_decide; lia. }
  assert (Forall2 le [0; 1; 0] [1; 1; 1]) as Hini
    by (repeat constructor; lia).
  assert (Forall2 le [3; 3; 3] [3; 4; 3]) as Hfin
    by (repeat constructor; lia).
  assert (has_label_in label_map [1; 1; 1] [3; 3; 3] = true) as Hacc
    by reflexivity.
  split; [by split_and!|].
  apply (has_label_in_mono label_map [1; 1; 1] [3; 3; 3] [0; 1; 0] [3; 4; 3]
           Hnonneg Hini Hfin Hacc).
Defined.

(** ** When a call returns *)

(** Among the windows from a position of the stream on, either the first
    [n] are all rejected or one of them is the first accepted. *)
Lemma first_accept_search rw label base n :
  (∀ j, j < n →
     has_label_in label (rw (base + j)).1 (rw (base + j)).2 = false)
  ∨ ∃ k, k < n ∧ first_accept rw label base k.
Proof.
  induction n as [|n [Hrej|(k & Hk & Hfa)]].
  - left. intros j ?. lia.
  - destruct (has_label_in label (rw (base + n)).1 (rw (base + n)).2)
      eqn:Hacc.
    + right. exists n. split; [lia|]. by split.
    + left. intros j Hj. destruct (decide (j = n)) as [->|]; [done|].
      apply Hrej. lia.
  - right. exists k. split; [lia | done].
Qed.

(** X11. On a sample with a label whose arrays are all in the store, a
    call returns within its fuel exactly when one of the first windows of
    the stream, as many as the fuel counts, passes the acceptance test. *)
Theorem extract_patch_returns_iff rw fuel s patch_size w image label :
  first_label_loop (values s) = Some image →
  store w !! DATA image = Some label →
  Forall (λ l, is_Some (store w !! l)) (arrays s) →
  (∃ out w', extract_patch rw fuel s patch_size w = Returned out w')
  ↔ ∃ k, k < fuel
         ∧ has_label_in label (rw (draws w + k)).1 (rw (draws w + k)).2 = true.
Proof.
  intros Hfirst Hl Hs. split.
  - intros (out & w' & Hret).
    apply extract_patch_Returned in Hret
      as (image' & label' & k & Hfirst' & Hl' & Hk & [Hacc _] & _).
    rewrite Hfirst in Hfirst'. injection Hfirst' as <-.
    rewrite Hl in Hl'. injection Hl' as <-. eauto.
  - intros (k & Hk & Hacc).
    destruct (first_accept_search rw label (draws w) fuel)
      as [Hrej | (k' & Hk' & Hfa)].
    + rewrite Hrej in Hacc by done. done.
    + erewrite extract_patch_accepts by done.
      by apply copy_and_crop_returns.
Qed.

Lemma extract_patch_returns_iff_witness :
  (first_label_loop (values subject) = Some (ImageDict 2%positive LABEL)
   ∧ store w0 !! 2%positive = Some label_map
   ∧ Forall (λ l, is_Some (store w0 !! l)) (arrays subject))
  ∧ ((∃ out w', extract_patch stream 5 subject [2; 2; 2] w0 = Returned out w')
     ↔ ∃ k, k < 5
            ∧ has_label_in label_map (stream (draws w0 + k)).1
                (stream (draws w0 + k)).2 = true).
Proof.
  assert (Forall (λ l, is_Some (store w0 !! l)) (arrays subject)) as Hs.
  { repeat constructor; by eexists. }
  split; [split_and!; [reflexivity | reflexivity | exact Hs]|].
  apply (extract_patch_returns_iff stream 5 subject [2; 2; 2] w0
           (ImageDict 2%positive LABEL) label_map);
    [reflexivity | reflexivity | exact Hs].
Defined.
